(** * GeminiLiveAssistant: the capture / queue / session pipeline of main.py

    A shallow embedding of [src/main.py].  The asynchronous loops of
    [GeminiLiveAssistant] are cut at their suspension points ([await]); every
    piece of code that runs between two suspension points is one transition of
    a state machine, and the answers of the outside world (devices, remote
    session, mouse) are the events that drive it.  What the program does to
    the outside world is recorded as a list of effects. *)

From Stdlib Require Import List String Ascii Bool Arith ZArith QArith Lia.
Import ListNotations.
Close Scope Q_scope.
Open Scope string_scope.
Open Scope list_scope.

(** ** Python values used by the program *)

Definition bytes := list Byte.byte.
Definition exn := string.

(** Truth value of a Python object that is [None], or [bytes]/[str]. *)
Definition truthy_bytes (o : option bytes) : bool :=
  match o with
  | None => false
  | Some [] => false
  | Some (_ :: _) => true
  end.

Definition truthy_str (o : option string) : bool :=
  match o with
  | None => false
  | Some EmptyString => false
  | Some (String _ _) => true
  end.

(** ** Global settings (lines 58-72) *)

Definition SEND_SAMPLE_RATE : Z := 16000.
Definition RECEIVE_SAMPLE_RATE : Z := 24000.
Definition CHUNK_SIZE : Z := 1024.
Definition CHANNELS : Z := 1.
Definition MODEL : string := "models/gemini-2.0-flash-exp".
Definition ICON_SIZE : Z := 100.
Definition MARGIN : Z := 30.

(** ** asyncio.Queue

    The queue of the Python standard library, as far as the program uses it:
    a FIFO over a deque, [maxsize <= 0] meaning unbounded.  [put_nowait] and
    [get_nowait] fail ([None]) where Python raises [QueueFull] / [QueueEmpty];
    the awaitable [put] / [get] stay suspended exactly as long as the
    [_nowait] version would fail. *)
Module AsyncQueue.

Record t (A : Type) : Type := mk { maxsize : Z; items : list A }.
Arguments mk {A} _ _.
Arguments maxsize {A} _.
Arguments items {A} _.

Definition new {A} (maxsize : Z) : t A := mk maxsize [].

Definition qsize {A} (q : t A) : nat := List.length (items q).

Definition empty {A} (q : t A) : bool :=
  match items q with [] => true | _ :: _ => false end.

Definition full {A} (q : t A) : bool :=
  if (maxsize q <=? 0)%Z then false
  else (maxsize q <=? Z.of_nat (qsize q))%Z.

Definition put_nowait {A} (x : A) (q : t A) : option (t A) :=
  if full q then None else Some (mk (maxsize q) (items q ++ [x])).

Definition get_nowait {A} (q : t A) : option (A * t A) :=
  match items q with
  | [] => None
  | x :: rest => Some (x, mk (maxsize q) rest)
  end.

End AsyncQueue.

(** ** Media chunks

    The dictionaries [{"data": ..., "mime_type": ...}] put on the outbound
    queue.  Audio carries raw bytes, a screen frame the base64 text of its
    JPEG encoding. *)
Inductive payload : Type :=
| Raw (b : bytes)
| Base64 (s : string).

Record MediaChunk : Type := { data : payload; mime_type : string }.

(** ** The tray icon (lines 78-100) *)

(** The icon file as the tray thread finds it. *)
Inductive logo_file : Type :=
| LogoMissing
| LogoOpenRaises (e : exn)
| LogoOpened (id : nat).

(** The image shown: the file, or the green 64 x 64 square marked "AI". *)
Inductive tray_image : Type :=
| LogoImage (id : nat)
| GreenSquare.

Inductive tray_effect : Type :=
| TrayPrint (s : string)
| IconRun (name : string) (image : tray_image) (title : string)
    (menu : list string)
| IconStop
| TrayExit (status : Z).

(** [run_tray_icon]. *)
Definition run_tray_icon (logo : logo_file) : list tray_effect :=
  let image :=
    match logo with
    | LogoOpened id => LogoImage id
    | LogoMissing | LogoOpenRaises _ => GreenSquare
    end in
  [IconRun "GeminiAssistant" image "Gemini Assistant" ["Quit"]].

(** Its menu callback [quit_app]. *)
Definition quit_app : list tray_effect :=
  [TrayPrint "[System] Exiting application..."; IconStop; TrayExit 0].

(** ** The overlay (class OverlayThread) *)

(** The animation file as the overlay thread finds it.  A frame of an opened
    file either goes through convert / resize / paste / PhotoImage or raises
    somewhere on the way. *)
Inductive gif_frame : Type :=
| FrameOk (id : nat)
| FrameRaises (e : exn).

Inductive gif_file : Type :=
| GifMissing
| GifOpenRaises (e : exn)
| GifOpened (frames : list gif_frame).

(** A processed frame: source frame [id], resized to [size] x [size]. *)
Record PhotoImage : Type := { frame_id : nat; size : Z }.

Inductive tk_effect : Type :=
| TkPrint (s : string)
| TkSetup
| TkPackLabel
| TkGeometry (x_pos y_pos : Z)
| TkDeiconify
| TkWithdraw
| TkConfigureImage (frame : PhotoImage)
| TkAfter (ms : Z)
| TkMainloop.

Module OverlayThread.

Record t : Type := mk {
  gif_path : string;
  icon_size : Z;
  daemon : bool;
  has_label : bool;
  frames : list PhotoImage;
  current_frame_idx : nat;
  transparent_color : string;
  should_be_visible : bool;
  is_window_hidden : bool
}.

(** [__init__] (lines 111-124). *)
Definition __init__ (gif_path : string) (icon_size : Z) : t :=
  {| gif_path := gif_path;
     icon_size := icon_size;
     daemon := true;
     has_label := false;
     frames := [];
     current_frame_idx := 0;
     transparent_color := "#000000";
     should_be_visible := true;
     is_window_hidden := false |}.

(** [set_visibility] (lines 126-128). *)
Definition set_visibility (self : t) (visible : bool) : t :=
  {| gif_path := gif_path self;
     icon_size := icon_size self;
     daemon := daemon self;
     has_label := has_label self;
     frames := frames self;
     current_frame_idx := current_frame_idx self;
     transparent_color := transparent_color self;
     should_be_visible := visible;
     is_window_hidden := is_window_hidden self |}.

(** The [for] loop of [load_gif] (lines 140-149): [Error] when a frame
    raises, which leaves the loop and the [try] block. *)
Fixpoint process_frames (size : Z) (src : list gif_frame)
    (processed_frames : list PhotoImage) : exn + list PhotoImage :=
  match src with
  | [] => inr processed_frames
  | FrameRaises e :: _ => inl e
  | FrameOk id :: rest =>
      process_frames size rest
        (processed_frames ++ [{| frame_id := id; size := size |}])
  end.

(** [load_gif] (lines 130-153): the frames and what is printed. *)
Definition load_gif (self : t) (file : gif_file)
    : list PhotoImage * list tk_effect :=
  match file with
  | GifMissing =>
      ([], [TkPrint ("[Warning] GIF not found at: " ++ gif_path self)%string])
  | GifOpenRaises e =>
      ([], [TkPrint ("[Error] Could not load GIF: " ++ e)%string])
  | GifOpened src =>
      match process_frames (icon_size self) src [] with
      | inr processed_frames => (processed_frames, [])
      | inl e => ([], [TkPrint ("[Error] Could not load GIF: " ++ e)%string])
      end
  end.

Definition with_window (self : t) (hidden : bool) : t :=
  {| gif_path := gif_path self;
     icon_size := icon_size self;
     daemon := daemon self;
     has_label := has_label self;
     frames := frames self;
     current_frame_idx := current_frame_idx self;
     transparent_color := transparent_color self;
     should_be_visible := should_be_visible self;
     is_window_hidden := hidden |}.

Definition with_frame_idx (self : t) (idx : nat) : t :=
  {| gif_path := gif_path self;
     icon_size := icon_size self;
     daemon := daemon self;
     has_label := has_label self;
     frames := frames self;
     current_frame_idx := idx;
     transparent_color := transparent_color self;
     should_be_visible := should_be_visible self;
     is_window_hidden := is_window_hidden self |}.

Definition with_frames (self : t) (fs : list PhotoImage) (label : bool) : t :=
  {| gif_path := gif_path self;
     icon_size := icon_size self;
     daemon := daemon self;
     has_label := label;
     frames := fs;
     current_frame_idx := current_frame_idx self;
     transparent_color := transparent_color self;
     should_be_visible := should_be_visible self;
     is_window_hidden := is_window_hidden self |}.

(** [update_animation] (lines 155-172): one firing of the 50 ms timer.  The
    method is called from [run] (line 201) and by the timer it starts (line
    172) only, on an object whose window exists (and whose label exists
    when it has frames); on an object that [run] has not reached, [root] is
    still [None] and the method would raise. *)
Definition update_animation (self : t) : t * list tk_effect :=
  let '(self, shown) :=
    if should_be_visible self && is_window_hidden self
    then (with_window self false, [TkDeiconify])
    else if negb (should_be_visible self) && negb (is_window_hidden self)
    then (with_window self true, [TkWithdraw])
    else (self, []) in
  let '(self, drawn) :=
    match frames self with
    | [] => (self, [])
    | f0 :: _ =>
        if should_be_visible self
        then (with_frame_idx self
                (S (current_frame_idx self) mod List.length (frames self)),
              [TkConfigureImage (nth (current_frame_idx self) (frames self) f0)])
        else (self, [])
    end in
  (self, shown ++ drawn ++ [TkAfter 50]).

(** [run] (lines 174-202), up to the call of [mainloop]; the timer
    firings that follow are [update_animation] again. *)
Definition run (self : t) (file : gif_file) (screen_width screen_height : Z)
    : t * list tk_effect :=
  let '(fs, printed) := load_gif self file in
  match fs with
  | [] =>
      (with_frames self [] false,
       [TkSetup] ++ printed ++ [TkPrint "No frames loaded for overlay."])
  | _ :: _ =>
      let self := with_frames self fs true in
      let x_pos := (screen_width - icon_size self - MARGIN)%Z in
      let y_pos := (screen_height - icon_size self - MARGIN)%Z in
      let '(self', drawn) := update_animation self in
      (self',
       [TkSetup] ++ printed ++ [TkPackLabel; TkGeometry x_pos y_pos]
         ++ drawn ++ [TkMainloop])
  end.

End OverlayThread.

(** ** Outside world of the asynchronous loops *)

(** [pynput.mouse.Button] (Windows backend). *)
Module Button.
Inductive t : Type := unknown | left | middle | right | x1 | x2.

Definition eqb (a b : t) : bool :=
  match a, b with
  | unknown, unknown | left, left | middle, middle
  | right, right | x1, x1 | x2, x2 => true
  | _, _ => false
  end.
End Button.

(** What one [audio_stream.read] of PyAudio meets in the device. *)
Inductive read_outcome : Type :=
| ReadData (d : bytes)
| ReadOverflowed (d : bytes)
| ReadFailed (e : exn).

(** PyAudio's [Stream.read(num_frames, exception_on_overflow)]: an input
    overflow raises only when the flag is set, every other error raises. *)
Definition stream_read (exception_on_overflow : bool) (r : read_outcome)
    : exn + bytes :=
  match r with
  | ReadData d => inr d
  | ReadOverflowed d =>
      if exception_on_overflow then inl "Input overflowed" else inr d
  | ReadFailed e => inl e
  end.

(** One event of a receive turn: [response.data] and [response.text]. *)
Record response : Type := { r_data : option bytes; r_text : option string }.

(** What the loops do to the outside world and to the two queues. *)
Inductive effect : Type :=
| Print (s : string)
| StreamRead (num_frames : Z) (exception_on_overflow : bool)
| ScreenCapture
| OutPut (c : MediaChunk)
| OutGet (c : MediaChunk)
| SessionSend (msg : MediaChunk) (raised : option exn)
| InPut (b : bytes)
| InGet (b : bytes)
| InDiscard (b : bytes)
| StreamWrite (b : bytes)
| Sleep (seconds : Q).

(** ** The end of [run] and of the main thread (lines 375-382, 406-409) *)

Inductive stop_action : Type :=
| TracebackPrint (es : list exn)
| ListenerStop
| PyAudioTerminate
| ExitProcess (status : Z).

(** How the [async with] block of [run] ends: cancelled, with the exception
    group of the tasks that raised, or with another exception (one raised
    while connecting, say). *)
Inductive body_end : Type :=
| BodyCancelled
| BodyExceptionGroup (es : list exn)
| BodyRaises (e : exn).

(** The handlers and the [finally] of [run]: what is done and the exception
    that leaves [run], if any. *)
Definition run_end (e : body_end) : list stop_action * option exn :=
  let '(handled, raised) :=
    match e with
    | BodyCancelled => ([], None)
    | BodyExceptionGroup es => ([TracebackPrint es], None)
    | BodyRaises e => ([], Some e)
    end in
  (handled ++ [ListenerStop; PyAudioTerminate], raised).

(** How [asyncio.run(app.run())] ends for the main thread. *)
Inductive run_result : Type :=
| RunReturned
| RunKeyboardInterrupt
| RunRaised (e : exn).

(** The [try] around [asyncio.run] (lines 406-409). *)
Definition main_end (r : run_result) : list stop_action :=
  match r with
  | RunKeyboardInterrupt => [ExitProcess 0]
  | RunReturned | RunRaised _ => []
  end.

(** ** Start-up *)

(** What the main thread does at start-up.  [Stop] is a step of the end of
    [run]; [Uncaught] is an exception that leaves the main thread, which
    ends with the traceback while the process lives on with its tray
    thread. *)
Inductive action : Type :=
| ConsolePrint (s : string)
| OsExit (status : Z)
| OverlayStart (gif_path : string) (icon_size : Z)
| TrayStart
| PyAudioNew
| GenaiClient (api_key : option string)
| ListenerStart
| LiveConnect (model : string)
| CreateTask (name : string)
| Stop (a : stop_action)
| Uncaught (e : exn).

(** What the calls of the start-up sequence meet: [PyAudio()] (line 217),
    [genai.Client(...)] (line 220) and [live.connect(...)] (line 359) each
    return ([None]) or raise. *)
Record startup : Type := {
  pyaudio_raises : option exn;
  client_raises : option exn;
  connect_raises : option exn
}.

(** Where a loop is suspended.  [MicRaised] and [SpeakerRaised] are the
    ends of loops that let an exception through. *)
Inductive mic_task : Type :=
| MicOpening
| MicReading
| MicPutting (c : MediaChunk)
| MicRaised (e : exn).

Inductive screen_task : Type :=
| ScreenGuard
| ScreenCapturing
| ScreenPutting (frame : MediaChunk)
| ScreenSleeping (seconds : Q).

Inductive speaker_task : Type :=
| SpeakerOpening
| SpeakerPlaying
| SpeakerRaised (e : exn).

(** What wakes a loop up, with the answer of the outside world. *)
Inductive mic_event : Type :=
| MicOpened (raised : option exn)
| MicReadDone (r : read_outcome)
| MicPutDone.

Inductive screen_event : Type :=
| ScreenCheck
| ScreenCaptured (r : exn + string)
| ScreenPutDone
| ScreenWake.

Inductive receive_event : Type :=
| RecvResponse (r : response)
| RecvExhausted
| RecvRaises (e : exn).

Inductive speaker_event : Type :=
| SpeakerOpened (raised : option exn)
| SpeakerWrite (raised : option exn).

Definition nl : string := String (Ascii.ascii_of_nat 10) "".

(** ** The assistant (class GeminiLiveAssistant) *)
Module GeminiLiveAssistant.

(** The fields the loops use; [session], [pya], [client] and [config] are
    handles of the outside world. *)
Record t : Type := mk {
  overlay : OverlayThread.t;
  audio_in_queue : AsyncQueue.t bytes;
  out_queue : AsyncQueue.t MediaChunk;
  is_streaming : bool
}.

(** [__init__] (lines 209-231). *)
Definition __init__ (overlay : OverlayThread.t) : t :=
  {| overlay := overlay;
     audio_in_queue := AsyncQueue.new 0;
     out_queue := AsyncQueue.new 5;
     is_streaming := true |}.

Definition with_out_queue (self : t) (q : AsyncQueue.t MediaChunk) : t :=
  {| overlay := overlay self;
     audio_in_queue := audio_in_queue self;
     out_queue := q;
     is_streaming := is_streaming self |}.

Definition with_audio_in_queue (self : t) (q : AsyncQueue.t bytes) : t :=
  {| overlay := overlay self;
     audio_in_queue := q;
     out_queue := out_queue self;
     is_streaming := is_streaming self |}.

(** [_capture_screen] (lines 233-256) on the JPEG the screen grab gave,
    already base64-encoded. *)
Definition _capture_screen (jpeg_b64 : string) : MediaChunk :=
  {| data := Base64 jpeg_b64; mime_type := "image/jpeg" |}.

(** [screen_loop] (lines 258-271).  [ScreenCheck] is the test of the flag
    (line 261), which starts the capture in a thread or the 0.2 s sleep;
    [ScreenCaptured] is the return of [_capture_screen], whose dictionary
    is never empty, so that [if frame:] always holds; [ScreenPutDone] is
    the return of [out_queue.put], possible only when the queue has room;
    [ScreenWake] is the end of a sleep. *)
Definition screen_loop (self : t) (pc : screen_task) (ev : screen_event)
    : option (t * screen_task * list effect) :=
  match pc, ev with
  | ScreenGuard, ScreenCheck =>
      if is_streaming self
      then Some (self, ScreenCapturing, [ScreenCapture])
      else Some (self, ScreenSleeping 0.2, [Sleep 0.2])
  | ScreenCapturing, ScreenCaptured (inr jpeg_b64) =>
      Some (self, ScreenPutting (_capture_screen jpeg_b64), [])
  | ScreenCapturing, ScreenCaptured (inl e) =>
      Some (self, ScreenSleeping 1.0,
            [Print ("[Error] Screen capture: " ++ e)%string; Sleep 1.0])
  | ScreenPutting frame, ScreenPutDone =>
      match AsyncQueue.put_nowait frame (out_queue self) with
      | Some q =>
          Some (with_out_queue self q, ScreenSleeping 1.0,
                [OutPut frame; Sleep 1.0])
      | None => None
      end
  | ScreenSleeping _, ScreenWake => Some (self, ScreenGuard, [])
  | _, _ => None
  end.

(** [kwargs] of [mic_loop] (line 286). *)
Definition exception_on_overflow : bool := false.

(** [mic_loop] (lines 273-291).  [MicOpened] is the return of the calls
    that open the input stream; [MicReadDone] is the return of
    [audio_stream.read], followed by the test of the flag (line 290);
    [MicPutDone] is the return of [out_queue.put], possible only when the
    queue has room.  Nothing in the loop catches an exception. *)
Definition mic_loop (self : t) (pc : mic_task) (ev : mic_event)
    : option (t * mic_task * list effect) :=
  match pc, ev with
  | MicOpening, MicOpened None => Some (self, MicReading, [])
  | MicOpening, MicOpened (Some e) => Some (self, MicRaised e, [])
  | MicReading, MicReadDone r =>
      match stream_read exception_on_overflow r with
      | inl e =>
          Some (self, MicRaised e,
                [StreamRead CHUNK_SIZE exception_on_overflow])
      | inr d =>
          if is_streaming self
          then Some (self,
                     MicPutting {| data := Raw d; mime_type := "audio/pcm" |},
                     [StreamRead CHUNK_SIZE exception_on_overflow])
          else Some (self, MicReading,
                     [StreamRead CHUNK_SIZE exception_on_overflow])
      end
  | MicPutting c, MicPutDone =>
      match AsyncQueue.put_nowait c (out_queue self) with
      | Some q => Some (with_out_queue self q, MicReading, [OutPut c])
      | None => None
      end
  | _, _ => None
  end.

(** [send_loop] (lines 293-300): one iteration, given whether
    [session.send] raised. *)
Definition send_loop (self : t) (raised : option exn)
    : option (t * list effect) :=
  match AsyncQueue.get_nowait (out_queue self) with
  | Some (msg, q) =>
      Some (with_out_queue self q, [OutGet msg; SessionSend msg raised])
  | None => None
  end.

(** The [while not empty: get_nowait()] of [receive_loop] (lines 315-316). *)
Fixpoint clear_queue (fuel : nat) (q : AsyncQueue.t bytes)
    : AsyncQueue.t bytes * list effect :=
  match fuel with
  | 0 => (q, [])
  | S fuel =>
      if negb (AsyncQueue.empty q)
      then match AsyncQueue.get_nowait q with
           | Some (b, q') =>
               let '(q'', dropped) := clear_queue fuel q' in
               (q'', InDiscard b :: dropped)
           | None => (q, [])
           end
      else (q, [])
  end.

(** [receive_loop] (lines 302-318): one event of the current turn.  An
    exception anywhere in the [try] is swallowed and the loop asks for the
    next turn. *)
Definition receive_loop (self : t) (ev : receive_event) : t * list effect :=
  match ev with
  | RecvResponse r =>
      if truthy_bytes (r_data r) then
        match r_data r with
        | Some d =>
            match AsyncQueue.put_nowait d (audio_in_queue self) with
            | Some q => (with_audio_in_queue self q, [InPut d])
            | None => (self, [])
            end
        | None => (self, [])
        end
      else if truthy_str (r_text r) then
        match r_text r with
        | Some text => (self, [Print text])
        | None => (self, [])
        end
      else (self, [])
  | RecvExhausted =>
      let '(q, dropped) :=
        clear_queue (AsyncQueue.qsize (audio_in_queue self))
                    (audio_in_queue self) in
      (with_audio_in_queue self q, dropped)
  | RecvRaises _ => (self, [])
  end.

(** [speaker_loop] (lines 320-331).  [SpeakerOpened] is the return of the
    call that opens the output stream; [SpeakerWrite] is one iteration,
    [audio_in_queue.get] (possible only when a buffer is queued) and then
    [stream.write].  Nothing in the loop catches an exception. *)
Definition speaker_loop (self : t) (pc : speaker_task) (ev : speaker_event)
    : option (t * speaker_task * list effect) :=
  match pc, ev with
  | SpeakerOpening, SpeakerOpened None => Some (self, SpeakerPlaying, [])
  | SpeakerOpening, SpeakerOpened (Some e) => Some (self, SpeakerRaised e, [])
  | SpeakerPlaying, SpeakerWrite raised =>
      match AsyncQueue.get_nowait (audio_in_queue self) with
      | Some (bytestream, q) =>
          Some (with_audio_in_queue self q,
                match raised with
                | None => SpeakerPlaying
                | Some e => SpeakerRaised e
                end,
                [InGet bytestream; StreamWrite bytestream])
      | None => None
      end
  | _, _ => None
  end.

(** The pictographs that end the two status texts of line 343, as the
    bytes of the source file. *)
Definition online_mark : string :=
  fold_right (fun n s => String (Ascii.ascii_of_nat n) s) ""
    [195; 176; 197; 184; 197; 184; 194; 162].

Definition paused_mark : string :=
  fold_right (fun n s => String (Ascii.ascii_of_nat n) s) ""
    [195; 176; 197; 184; 226; 128; 157; 194; 180].

(** [on_mouse_click] (lines 333-344). *)
Definition on_mouse_click (self : t) (x y : Z) (button : Button.t)
    (pressed : bool) : t * list effect :=
  if negb pressed then (self, [])
  else if Button.eqb button Button.x1 then
    let streaming := negb (is_streaming self) in
    let self :=
      {| overlay := OverlayThread.set_visibility (overlay self) streaming;
         audio_in_queue := audio_in_queue self;
         out_queue := out_queue self;
         is_streaming := streaming |} in
    let status :=
      (if is_streaming self then "ONLINE (Listening) " ++ online_mark
       else "PAUSED " ++ paused_mark)%string in
    (self, [Print (nl ++ "[Status] " ++ status)%string])
  else (self, []).

(** [run] (lines 346-382), up to the creation of the tasks; from there on
    the tasks are the state machine of [Pipeline] below.  When
    [live.connect] raises no task is created: the exception is none of
    those [run] handles, the [finally] runs and the exception leaves
    [run]. *)
Definition run (connect_raises : option exn) : list action :=
  [ ListenerStart;
    ConsolePrint "--- Gemini Live Assistant Started ---";
    ConsolePrint "Control: Toggle with [MOUSE BUTTON 4] (Side button)";
    ConsolePrint "Exit: Right-click the system tray icon";
    ConsolePrint "-------------------------------------";
    LiveConnect MODEL ]
  ++ match connect_raises with
     | None =>
         [ CreateTask "send_loop";
           CreateTask "mic_loop";
           CreateTask "screen_loop";
           CreateTask "receive_loop";
           CreateTask "speaker_loop" ]
     | Some e => map Stop (fst (run_end (BodyRaises e)))
     end.

End GeminiLiveAssistant.

(** ** The task group of [run] (lines 357-373)

    The five loops run as tasks of one event loop, the mouse listener on a
    thread of its own.  A schedule is the list of events in the order in
    which they are served.  A task that raises makes the task group cancel
    all the others, and [run] stops the listener. *)
Module Pipeline.
Import GeminiLiveAssistant.

Record state : Type := mk {
  app : GeminiLiveAssistant.t;
  mic : mic_task;
  screen : screen_task;
  speaker : speaker_task
}.

Inductive event : Type :=
| Click (x y : Z) (button : Button.t) (pressed : bool)
| Mic (ev : mic_event)
| Screen (ev : screen_event)
| Send (raised : option exn)
| Receive (ev : receive_event)
| Speaker (ev : speaker_event).

(** The tasks as [create_task] leaves them. *)
Definition start (app : GeminiLiveAssistant.t) : state :=
  {| app := app;
     mic := MicOpening;
     screen := ScreenGuard;
     speaker := SpeakerOpening |}.

Definition torn_down (s : state) : bool :=
  match mic s, speaker s with
  | MicRaised _, _ => true
  | _, SpeakerRaised _ => true
  | _, _ => false
  end.

(** One event; [None] when the task it belongs to is not waiting for it
    (a [put] on a full queue, a [get] on an empty one) or when the task
    group is gone. *)
Definition step (s : state) (e : event) : option (state * list effect) :=
  if torn_down s then None
  else
    match e with
    | Click x y button pressed =>
        let '(a, out) := on_mouse_click (app s) x y button pressed in
        Some ({| app := a; mic := mic s; screen := screen s;
                 speaker := speaker s |}, out)
    | Mic ev =>
        match mic_loop (app s) (mic s) ev with
        | Some (a, pc, out) =>
            Some ({| app := a; mic := pc; screen := screen s;
                     speaker := speaker s |}, out)
        | None => None
        end
    | Screen ev =>
        match screen_loop (app s) (screen s) ev with
        | Some (a, pc, out) =>
            Some ({| app := a; mic := mic s; screen := pc;
                     speaker := speaker s |}, out)
        | None => None
        end
    | Send raised =>
        match send_loop (app s) raised with
        | Some (a, out) =>
            Some ({| app := a; mic := mic s; screen := screen s;
                     speaker := speaker s |}, out)
        | None => None
        end
    | Receive ev =>
        let '(a, out) := receive_loop (app s) ev in
        Some ({| app := a; mic := mic s; screen := screen s;
                 speaker := speaker s |}, out)
    | Speaker ev =>
        match speaker_loop (app s) (speaker s) ev with
        | Some (a, pc, out) =>
            Some ({| app := a; mic := mic s; screen := screen s;
                     speaker := pc |}, out)
        | None => None
        end
    end.

(** A whole schedule, with everything it did. *)
Fixpoint exec (s : state) (evs : list event) : option (state * list effect) :=
  match evs with
  | [] => Some (s, [])
  | e :: rest =>
      match step s e with
      | Some (s1, out1) =>
          match exec s1 rest with
          | Some (s2, out2) => Some (s2, out1 ++ out2)
          | None => None
          end
      | None => None
      end
  end.

(** Readings of a list of effects. *)
Definition enqueued (tr : list effect) : list MediaChunk :=
  flat_map (fun e => match e with OutPut c => [c] | _ => [] end) tr.

Definition dequeued (tr : list effect) : list MediaChunk :=
  flat_map (fun e => match e with OutGet c => [c] | _ => [] end) tr.

Definition sent (tr : list effect) : list MediaChunk :=
  flat_map (fun e => match e with SessionSend c _ => [c] | _ => [] end) tr.

Definition received (tr : list effect) : list bytes :=
  flat_map (fun e => match e with InPut b => [b] | _ => [] end) tr.

Definition discarded (tr : list effect) : list bytes :=
  flat_map (fun e => match e with InDiscard b => [b] | _ => [] end) tr.

Definition played (tr : list effect) : list bytes :=
  flat_map (fun e => match e with StreamWrite b => [b] | _ => [] end) tr.

Definition device_reads (tr : list effect) : nat :=
  List.length
    (filter (fun e => match e with StreamRead _ _ => true | _ => false end) tr).

Definition captures (tr : list effect) : nat :=
  List.length
    (filter (fun e => match e with ScreenCapture => true | _ => false end) tr).

End Pipeline.

(** ** Main execution (lines 388-409) *)
Module Main.

(** [os.path.join] of Windows on a relative second component: no separator
    is added after an empty path, a trailing separator or a bare drive. *)
Fixpoint last_char (a : string) : option Ascii.ascii :=
  match a with
  | EmptyString => None
  | String c EmptyString => Some c
  | String _ rest => last_char rest
  end.

Definition is_separator (c : Ascii.ascii) : bool :=
  Ascii.eqb c "\"%char || Ascii.eqb c "/"%char.

Definition bare_drive (a : string) : bool :=
  match a with
  | String _ (String c EmptyString) => Ascii.eqb c ":"%char
  | _ => false
  end.

Definition path_join (a b : string) : string :=
  match last_char a with
  | None => b
  | Some c =>
      if is_separator c || bare_drive a then (a ++ b)%string
      else (a ++ "\" ++ b)%string
  end.

Definition ASSETS_DIR (APP_PATH : string) : string := path_join APP_PATH "assets".
Definition GIF_PATH (APP_PATH : string) : string :=
  path_join (ASSETS_DIR APP_PATH) "loading.gif".

(** The [__main__] guard; [API_KEY] is [os.getenv("GEMINI_API_KEY")].
    [os._exit] ends the process, nothing runs after it.  Past the guard
    nothing is caught but [KeyboardInterrupt]: the constructor of the
    assistant stops at the first of its calls that raises, and an exception
    that leaves [run] leaves [asyncio.run] and the main thread too. *)
Definition main (APP_PATH : string) (API_KEY : option string) (env : startup)
    : list action :=
  if negb (truthy_str API_KEY) then
    [ ConsolePrint "ERROR: GEMINI_API_KEY not found in .env file.";
      ConsolePrint "Please create a .env file with your key.";
      OsExit 1 ]
  else
    [ OverlayStart (GIF_PATH APP_PATH) ICON_SIZE;
      TrayStart;
      PyAudioNew ]
    ++ match pyaudio_raises env with
       | Some e => [Uncaught e]
       | None =>
           GenaiClient API_KEY
           :: match client_raises env with
              | Some e => [Uncaught e]
              | None =>
                  GeminiLiveAssistant.run (connect_raises env)
                  ++ match connect_raises env with
                     | Some e => [Uncaught e]
                     | None => []
                     end
              end
       end.

(** The thread [OverlayStart] launches: [OverlayThread.run] on the object
    the guard built, with the animation file and the screen it finds. *)
Definition overlay_thread (APP_PATH : string) (file : gif_file)
    (screen_width screen_height : Z) : OverlayThread.t * list tk_effect :=
  OverlayThread.run (OverlayThread.__init__ (GIF_PATH APP_PATH) ICON_SIZE)
    file screen_width screen_height.

Definition exit_status (tr : list action) : option Z :=
  match filter (fun a => match a with OsExit _ => true | _ => false end) tr with
  | OsExit status :: _ => Some status
  | _ => None
  end.

Definition opens_session (a : action) : bool :=
  match a with
  | GenaiClient _ | LiveConnect _ => true
  | _ => false
  end.

End Main.

(** ** Vocabulary of the properties *)

(** The secret counts as absent when the variable is unset or empty: both
    make [not API_KEY] true. *)
Definition secret_absent (API_KEY : option string) : Prop :=
  API_KEY = None \/ API_KEY = Some "".

Definition secret_present (API_KEY : option string) : Prop :=
  exists key, API_KEY = Some key /\ key <> "".

(** The five loops of the pipeline.  The pipeline has been started when
    [run] was entered, the session was opened and the five loops were
    created. *)
Definition loop_names : list string :=
  ["send_loop"; "mic_loop"; "screen_loop"; "receive_loop"; "speaker_loop"].

Definition pipeline_started (tr : list action) : Prop :=
  In ListenerStart tr
  /\ In (LiveConnect MODEL) tr
  /\ Forall (fun name => In (CreateTask name) tr) loop_names.

(** Start-ups: everything comes up; no audio backend; no network. *)
Definition all_up : startup :=
  {| pyaudio_raises := None; client_raises := None; connect_raises := None |}.

Definition no_audio_backend : startup :=
  {| pyaudio_raises := Some "PortAudio not initialized";
     client_raises := None;
     connect_raises := None |}.

Definition network_down : startup :=
  {| pyaudio_raises := None;
     client_raises := None;
     connect_raises := Some "Temporary failure in name resolution" |}.

(** A press of the side button. *)
Definition is_toggle (e : Pipeline.event) : bool :=
  match e with
  | Pipeline.Click _ _ Button.x1 true => true
  | _ => false
  end.

(** The overlay's visibility flag agrees with the streaming flag. *)
Definition in_sync (self : GeminiLiveAssistant.t) : Prop :=
  OverlayThread.should_be_visible (GeminiLiveAssistant.overlay self)
  = GeminiLiveAssistant.is_streaming self.

(** The states the program can be in: those a schedule leads to from the
    freshly constructed objects. *)
Definition boot (gif_path : string) (icon_size : Z) : Pipeline.state :=
  Pipeline.start
    (GeminiLiveAssistant.__init__ (OverlayThread.__init__ gif_path icon_size)).

Definition reachable (s : Pipeline.state) : Prop :=
  exists gif_path icon_size evs tr,
    Pipeline.exec (boot gif_path icon_size) evs = Some (s, tr).

(** The animation file cannot be used: it is not there, or opening it or
    one of its frames raises. *)
Definition undecodable (file : gif_file) : Prop :=
  match file with
  | GifMissing => False
  | GifOpenRaises _ => True
  | GifOpened src => exists e, In (FrameRaises e) src
  end.

Definition asset_unavailable (file : gif_file) : Prop :=
  file = GifMissing \/ undecodable file.

(** Frames put on the label. *)
Definition rendered (out : list tk_effect) : nat :=
  List.length
    (filter (fun e => match e with TkConfigureImage _ => true | _ => false end)
       out).

(** Both capture loops are at rest: no capture under way, no [put] pending. *)
Definition at_rest (s : Pipeline.state) : Prop :=
  match Pipeline.mic s with
  | MicPutting _ => False
  | _ => True
  end
  /\ match Pipeline.screen s with
     | ScreenCapturing | ScreenPutting _ => False
     | _ => True
     end.

(** Device reads that returned during a schedule. *)
Definition reads_served (evs : list Pipeline.event) : nat :=
  List.length
    (filter (fun e => match e with
                      | Pipeline.Mic (MicReadDone _) => true
                      | _ => false
                      end) evs).

Definition is_send (e : Pipeline.event) : bool :=
  match e with Pipeline.Send _ => true | _ => false end.

Definition is_put (e : Pipeline.event) : bool :=
  match e with
  | Pipeline.Mic MicPutDone | Pipeline.Screen ScreenPutDone => true
  | _ => false
  end.

Definition is_turn_end (e : Pipeline.event) : bool :=
  match e with Pipeline.Receive RecvExhausted => true | _ => false end.

(** The audio a list of responses carries. *)
Definition audio_of (rs : list response) : list bytes :=
  flat_map (fun r => match r_data r with
                     | Some (b :: d) => [b :: d]
                     | _ => []
                     end) rs.

(** The events of a turn with these responses, and of the player taking
    [n] buffers. *)
Definition turn_events (rs : list response) : list Pipeline.event :=
  map (fun r => Pipeline.Receive (RecvResponse r)) rs.

Definition player_takes (n : nat) : list Pipeline.event :=
  repeat (Pipeline.Speaker (SpeakerWrite None)) n.

(** A device read does not end the microphone loop. *)
Definition read_survived (self : GeminiLiveAssistant.t) (r : read_outcome)
    : Prop :=
  exists self' pc out,
    GeminiLiveAssistant.mic_loop self MicReading (MicReadDone r)
      = Some (self', pc, out)
    /\ forall e, pc <> MicRaised e.

(** ** Sample schedules *)

(** The state and the effects of a schedule served from the start (the
    start itself if some event of it cannot be served). *)
Definition run_of (evs : list Pipeline.event) : Pipeline.state * list effect :=
  match Pipeline.exec (boot "loading.gif" 100) evs with
  | Some r => r
  | None => (boot "loading.gif" 100, [])
  end.

Definition run_from (s : Pipeline.state) (evs : list Pipeline.event)
    : Pipeline.state * list effect :=
  match Pipeline.exec s evs with
  | Some r => r
  | None => (s, [])
  end.

Definition step_of (s : Pipeline.state) (e : Pipeline.event)
    : Pipeline.state * list effect :=
  match Pipeline.step s e with
  | Some r => r
  | None => (s, [])
  end.

(** Two audio chunks around a screen frame, two of them sent, one send
    failing. *)
Definition fifo_schedule : list Pipeline.event :=
  [ Pipeline.Mic (MicOpened None);
    Pipeline.Mic (MicReadDone (ReadData [Byte.x01; Byte.x02]));
    Pipeline.Mic MicPutDone;
    Pipeline.Screen ScreenCheck;
    Pipeline.Screen (ScreenCaptured (inr "/9j/4AAQSkZJRg=="));
    Pipeline.Screen ScreenPutDone;
    Pipeline.Mic (MicReadDone (ReadOverflowed [Byte.x03]));
    Pipeline.Send (Some "connection closed");
    Pipeline.Mic MicPutDone;
    Pipeline.Send None ].

(** Two buffers received and not yet played. *)
Definition preload_schedule : list Pipeline.event :=
  [ Pipeline.Speaker (SpeakerOpened None);
    Pipeline.Receive
      (RecvResponse {| r_data := Some [Byte.x01; Byte.x02]; r_text := None |});
    Pipeline.Receive
      (RecvResponse {| r_data := None; r_text := Some "hello" |});
    Pipeline.Receive
      (RecvResponse {| r_data := Some [Byte.x03]; r_text := None |}) ].

Definition next_turn : list response :=
  [ {| r_data := Some [Byte.x04]; r_text := None |};
    {| r_data := Some []; r_text := Some "" |};
    {| r_data := Some [Byte.x05; Byte.x06]; r_text := Some "both" |} ].

(** The side button pressed once after the microphone was opened. *)
Definition paused_schedule : list Pipeline.event :=
  [ Pipeline.Mic (MicOpened None);
    Pipeline.Click 10 20 Button.x1 true ].

Definition idle_schedule : list Pipeline.event :=
  [ Pipeline.Mic (MicReadDone (ReadData [Byte.x01]));
    Pipeline.Screen ScreenCheck;
    Pipeline.Click 10 20 Button.x1 false;
    Pipeline.Mic (MicReadDone (ReadOverflowed [Byte.x02]));
    Pipeline.Screen ScreenWake;
    Pipeline.Click 10 20 Button.left true;
    Pipeline.Screen ScreenCheck ].

(** Five audio chunks queued and a sixth read waiting for its [put]. *)
Definition full_schedule : list Pipeline.event :=
  Pipeline.Mic (MicOpened None)
    :: List.concat (repeat [ Pipeline.Mic (MicReadDone (ReadData [Byte.x01]));
                        Pipeline.Mic MicPutDone ] 5)
    ++ [ Pipeline.Mic (MicReadDone (ReadData [Byte.x02])) ].

(** A microphone read that fails. *)
Definition broken_mic_schedule : list Pipeline.event :=
  [ Pipeline.Mic (MicOpened None);
    Pipeline.Mic (MicReadDone (ReadFailed "Unanticipated host error")) ].

(** Clicks, none of them a press of the side button. *)
Definition untoggled_schedule : list Pipeline.event :=
  [ Pipeline.Mic (MicOpened None);
    Pipeline.Click 1 1 Button.left true;
    Pipeline.Click 1 1 Button.x1 false;
    Pipeline.Click 1 1 Button.x2 true;
    Pipeline.Screen ScreenCheck ].

(** ** The end of the task group *)

(** The end the task group gives to the [async with] block once a task has
    raised. *)
Definition group_end (s : Pipeline.state) : option body_end :=
  match Pipeline.mic s, Pipeline.speaker s with
  | MicRaised e, _ => Some (BodyExceptionGroup [e])
  | _, SpeakerRaised e => Some (BodyExceptionGroup [e])
  | _, _ => None
  end.

Definition run_outcome (raised : option exn) : run_result :=
  match raised with
  | None => RunReturned
  | Some e => RunRaised e
  end.

(** ** Further vocabulary *)

(** The timer of the overlay firing once for each element of [vs], the
    visibility flag having been set to that value before it fires. *)
Fixpoint animate (self : OverlayThread.t) (vs : list bool)
    : OverlayThread.t * list tk_effect :=
  match vs with
  | [] => (self, [])
  | v :: rest =>
      let '(self1, out1) :=
        OverlayThread.update_animation (OverlayThread.set_visibility self v) in
      let '(self2, out2) := animate self1 rest in
      (self2, out1 ++ out2)
  end.

(** The frames put on the label, in order. *)
Definition drawn (out : list tk_effect) : list PhotoImage :=
  flat_map (fun e => match e with TkConfigureImage f => [f] | _ => [] end) out.

Definition visible_firings (vs : list bool) : nat :=
  List.length (filter (fun v => v) vs).

(** The frame numbers of a file all of whose frames can be processed. *)
Fixpoint frame_ids (src : list gif_frame) : option (list nat) :=
  match src with
  | [] => Some []
  | FrameOk id :: rest => option_map (cons id) (frame_ids rest)
  | FrameRaises _ :: _ => None
  end.

(** Presses of the side button in a schedule. *)
Definition toggles (evs : list Pipeline.event) : nat :=
  List.length (filter is_toggle evs).

(** [l1] is [l2] with some elements left out. *)
Inductive Subseq {A : Type} : list A -> list A -> Prop :=
| Subseq_nil : Subseq [] []
| Subseq_skip x l1 l2 : Subseq l1 l2 -> Subseq l1 (x :: l2)
| Subseq_keep x l1 l2 : Subseq l1 l2 -> Subseq (x :: l1) (x :: l2).

(** The two kinds of chunk of the data model. *)
Definition is_audio (c : MediaChunk) : bool :=
  match data c with
  | Raw _ => String.eqb (mime_type c) "audio/pcm"
  | Base64 _ => false
  end.

Definition is_image (c : MediaChunk) : bool :=
  match data c with
  | Base64 _ => String.eqb (mime_type c) "image/jpeg"
  | Raw _ => false
  end.

Definition well_formed (c : MediaChunk) : bool := is_audio c || is_image c.

(** The chunk a capture loop holds while it waits in [put]. *)
Definition mic_holds (pc : mic_task) : list MediaChunk :=
  match pc with MicPutting c => [c] | _ => [] end.

Definition screen_holds (pc : screen_task) : list MediaChunk :=
  match pc with ScreenPutting frame => [frame] | _ => [] end.

(** The raw audio of a list of chunks. *)
Definition audio_payloads (cs : list MediaChunk) : list bytes :=
  flat_map (fun c => match data c with Raw d => [d] | Base64 _ => [] end) cs.

(** The data the device reads of a schedule returned. *)
Definition reads_data (evs : list Pipeline.event) : list bytes :=
  flat_map (fun e =>
              match e with
              | Pipeline.Mic (MicReadDone r) =>
                  match stream_read GeminiLiveAssistant.exception_on_overflow r with
                  | inr d => [d]
                  | inl _ => []
                  end
              | _ => []
              end) evs.

(** A capture that has not reached its one-second sleep yet. *)
Definition capture_in_flight (pc : screen_task) : nat :=
  match pc with
  | ScreenCapturing | ScreenPutting _ => 1
  | ScreenGuard | ScreenSleeping _ => 0
  end.

(** The chunks on their way to the queue: past the test of the flag, not
    yet enqueued.  There is at most one per capture loop. *)
Definition in_flight (s : Pipeline.state) : nat :=
  List.length (mic_holds (Pipeline.mic s))
  + capture_in_flight (Pipeline.screen s).

Definition long_sleeps (tr : list effect) : nat :=
  List.length
    (filter (fun e => match e with Sleep d => Qeq_bool d 1 | _ => false end) tr).

Definition frames_enqueued (tr : list effect) : nat :=
  List.length (filter is_image (Pipeline.enqueued tr)).

(** What a list of effects prints, and the texts a list of responses has
    for the console: those of the responses without audio. *)
Definition printed (tr : list effect) : list string :=
  flat_map (fun e => match e with Print s => [s] | _ => [] end) tr.

Definition text_of (rs : list response) : list string :=
  flat_map (fun r =>
              if truthy_bytes (r_data r) then []
              else match r_text r with
                   | Some (String c t) => [String c t]
                   | _ => []
                   end) rs.

(** The events that end a loop with an exception: a failure to open an
    audio stream, a microphone read that raises, a speaker write that
    raises. *)
Definition fatal (e : Pipeline.event) : bool :=
  match e with
  | Pipeline.Mic (MicOpened (Some _)) => true
  | Pipeline.Mic (MicReadDone r) =>
      match stream_read GeminiLiveAssistant.exception_on_overflow r with
      | inl _ => true
      | inr _ => false
      end
  | Pipeline.Speaker (SpeakerOpened (Some _)) => true
  | Pipeline.Speaker (SpeakerWrite (Some _)) => true
  | _ => false
  end.

(** Every chunk held by a capture loop or queued is of its kind. *)
Definition holds_well_formed (s : Pipeline.state) : Prop :=
  Forall (fun c => is_audio c = true) (mic_holds (Pipeline.mic s))
  /\ Forall (fun c => is_image c = true) (screen_holds (Pipeline.screen s))
  /\ Forall (fun c => well_formed c = true)
       (AsyncQueue.items (GeminiLiveAssistant.out_queue (Pipeline.app s))).

(** The side button pressed while a chunk is past its test: after the
    microphone read has returned, and while the screen capture runs. *)
Definition stale_mic_schedule : list Pipeline.event :=
  [ Pipeline.Mic (MicOpened None);
    Pipeline.Mic (MicReadDone (ReadData [Byte.x01]));
    Pipeline.Click 10 20 Button.x1 true ].

Definition stale_screen_schedule : list Pipeline.event :=
  [ Pipeline.Screen ScreenCheck;
    Pipeline.Click 10 20 Button.x1 true;
    Pipeline.Screen (ScreenCaptured (inr "/9j/4AAQSkZJRg==")) ].

(** Sample inputs. *)
Definition three_frames : gif_file := GifOpened [FrameOk 0; FrameOk 1; FrameOk 2].

Definition mixed_turn : list response :=
  [ {| r_data := Some [Byte.x04]; r_text := Some "dropped" |};
    {| r_data := None; r_text := Some "hello" |};
    {| r_data := Some []; r_text := Some "world" |};
    {| r_data := None; r_text := Some "" |} ].

(** * Properties *)

(** ** Start-up *)

Lemma secret_absent_truthy API_KEY :
  secret_absent API_KEY -> truthy_str API_KEY = false.
Proof. intros [-> | ->]; reflexivity. Qed.

Lemma secret_present_truthy API_KEY :
  secret_present API_KEY -> truthy_str API_KEY = true.
Proof.
  intros (key & -> & Hkey). destruct key as [|c k]; [congruence | reflexivity].
Qed.

(** C6, as stated, fails in its second half: with the API key present the
    guard is passed, but nothing past it is caught, and when [PyAudio()]
    raises in the constructor of the assistant the main thread ends there:
    the overlay and the tray have been started, [run] is never entered, no
    session is opened and no loop is created. *)
Lemma present_secret_can_start_no_pipeline :
  secret_present (Some "k3y")
  /\ Main.main "C:\app" (Some "k3y") no_audio_backend
     = [ OverlayStart "C:\app\assets\loading.gif" 100;
         TrayStart;
         PyAudioNew;
         Uncaught "PortAudio not initialized" ]
  /\ ~ In ListenerStart (Main.main "C:\app" (Some "k3y") no_audio_backend)
  /\ ~ pipeline_started (Main.main "C:\app" (Some "k3y") no_audio_backend)
  /\ ~ (forall API_KEY env,
          secret_present API_KEY ->
          pipeline_started (Main.main "C:\app" API_KEY env)).
Proof.
  assert (Hp : secret_present (Some "k3y")).
  { exists "k3y". split; [reflexivity | discriminate]. }
  assert (Hl : ~ In ListenerStart
                 (Main.main "C:\app" (Some "k3y") no_audio_backend)).
  { cbn. intros [H|[H|[H|[H|[]]]]]; discriminate. }
  split; [exact Hp|]. split; [reflexivity|]. split; [exact Hl|]. split.
  - intros (H & _). now apply Hl.
  - intros H. destruct (H (Some "k3y") no_audio_backend Hp) as (H1 & _).
    now apply Hl.
Qed.

Ltac close_startup :=
  intros;
  repeat match goal with
         | H : Some _ = Some _ |- _ => injection H as <-
         | H : Some _ = None |- _ => discriminate H
         | H : None = Some _ |- _ => discriminate H
         end;
  reflexivity.

Ltac show_started :=
  unfold pipeline_started, loop_names;
  split; [cbn; auto 20|]; split; [cbn; auto 20|];
  repeat (apply Forall_cons; [cbn; auto 20|]); apply Forall_nil.

(** C6, amended: without the API key (unset or empty) the guard prints its
    diagnostic and leaves with status 1, and nothing that builds the client
    or opens the session is ever run.  With the key the guard does not
    exit: the overlay thread and the tray thread are started and the
    assistant is constructed.  The asynchronous pipeline is started when
    none of [PyAudio()], [genai.Client()] and [live.connect()] raises, and
    only then: the listener is started, the banner printed, the session
    opened and the five loops created, in this order.  When one of them
    raises, start-up stops at that call: after [PyAudio()] or the client
    nothing of [run] happens; after a failed connect [run] stops the
    listener and terminates PyAudio, and no loop is created. *)
Theorem missing_secret_exits_before_session :
  forall APP_PATH API_KEY env,
    (secret_absent API_KEY ->
       Main.main APP_PATH API_KEY env =
         [ ConsolePrint "ERROR: GEMINI_API_KEY not found in .env file.";
           ConsolePrint "Please create a .env file with your key.";
           OsExit 1 ]
       /\ Main.exit_status (Main.main APP_PATH API_KEY env) = Some 1%Z
       /\ existsb Main.opens_session (Main.main APP_PATH API_KEY env) = false)
    /\
    (secret_present API_KEY ->
       Main.exit_status (Main.main APP_PATH API_KEY env) = None
       /\ firstn 3 (Main.main APP_PATH API_KEY env)
          = [ OverlayStart (Main.GIF_PATH APP_PATH) ICON_SIZE;
              TrayStart;
              PyAudioNew ]
       /\ (forall e,
             pyaudio_raises env = Some e ->
             Main.main APP_PATH API_KEY env
             = [ OverlayStart (Main.GIF_PATH APP_PATH) ICON_SIZE;
                 TrayStart;
                 PyAudioNew;
                 Uncaught e ])
       /\ (forall e,
             pyaudio_raises env = None ->
             client_raises env = Some e ->
             Main.main APP_PATH API_KEY env
             = [ OverlayStart (Main.GIF_PATH APP_PATH) ICON_SIZE;
                 TrayStart;
                 PyAudioNew;
                 GenaiClient API_KEY;
                 Uncaught e ])
       /\ (forall e,
             pyaudio_raises env = None ->
             client_raises env = None ->
             connect_raises env = Some e ->
             Main.main APP_PATH API_KEY env
             = [ OverlayStart (Main.GIF_PATH APP_PATH) ICON_SIZE;
                 TrayStart;
                 PyAudioNew;
                 GenaiClient API_KEY;
                 ListenerStart;
                 ConsolePrint "--- Gemini Live Assistant Started ---";
                 ConsolePrint
                   "Control: Toggle with [MOUSE BUTTON 4] (Side button)";
                 ConsolePrint "Exit: Right-click the system tray icon";
                 ConsolePrint "-------------------------------------";
                 LiveConnect MODEL;
                 Stop ListenerStop;
                 Stop PyAudioTerminate;
                 Uncaught e ])
       /\ (pyaudio_raises env = None ->
           client_raises env = None ->
           connect_raises env = None ->
           Main.main APP_PATH API_KEY env
           = [ OverlayStart (Main.GIF_PATH APP_PATH) ICON_SIZE;
               TrayStart;
               PyAudioNew;
               GenaiClient API_KEY;
               ListenerStart;
               ConsolePrint "--- Gemini Live Assistant Started ---";
               ConsolePrint
                 "Control: Toggle with [MOUSE BUTTON 4] (Side button)";
               ConsolePrint "Exit: Right-click the system tray icon";
               ConsolePrint "-------------------------------------";
               LiveConnect MODEL;
               CreateTask "send_loop";
               CreateTask "mic_loop";
               CreateTask "screen_loop";
               CreateTask "receive_loop";
               CreateTask "speaker_loop" ])
       /\ (pipeline_started (Main.main APP_PATH API_KEY env)
           <-> pyaudio_raises env = None
               /\ client_raises env = None
               /\ connect_raises env = None)).
Proof.
  intros APP_PATH API_KEY env; split; intros H.
  - apply secret_absent_truthy in H.
    unfold Main.main; rewrite H; cbn. repeat split.
  - apply secret_present_truthy in H.
    unfold Main.main; rewrite H; cbn [negb].
    destruct env as [[ea|] [ec|] [en|]]; cbn -[Main.GIF_PATH];
      (split; [reflexivity|]); (split; [reflexivity|]);
      (split; [close_startup|]); (split; [close_startup|]);
      (split; [close_startup|]); (split; [close_startup|]);
      (split;
       [ intros (Hl & Hc & Ht);
         first [ now repeat split
               | exfalso; cbn in Hl; intuition discriminate
               | exfalso; apply Forall_inv in Ht; cbn in Ht;
                 intuition discriminate ]
       | intros (H1 & H2 & H3); try discriminate; show_started ]).
Qed.

Lemma missing_secret_exits_before_session_witness :
  Main.exit_status (Main.main "C:\app" None all_up) = Some 1%Z
  /\ Main.exit_status (Main.main "C:\app" (Some "") network_down) = Some 1%Z
  /\ Main.exit_status (Main.main "C:\app" (Some "k3y") all_up) = None
  /\ pipeline_started (Main.main "C:\app" (Some "k3y") all_up)
  /\ Main.main "C:\app" (Some "k3y") network_down
     = [ OverlayStart "C:\app\assets\loading.gif" 100;
         TrayStart;
         PyAudioNew;
         GenaiClient (Some "k3y");
         ListenerStart;
         ConsolePrint "--- Gemini Live Assistant Started ---";
         ConsolePrint "Control: Toggle with [MOUSE BUTTON 4] (Side button)";
         ConsolePrint "Exit: Right-click the system tray icon";
         ConsolePrint "-------------------------------------";
         LiveConnect MODEL;
         Stop ListenerStop;
         Stop PyAudioTerminate;
         Uncaught "Temporary failure in name resolution" ].
Proof.
  assert (Hp : secret_present (Some "k3y")).
  { exists "k3y". split; [reflexivity | discriminate]. }
  destruct (missing_secret_exits_before_session "C:\app" None all_up)
    as [Hunset _].
  destruct (missing_secret_exits_before_session "C:\app" (Some "") network_down)
    as [Hempty _].
  destruct (missing_secret_exits_before_session "C:\app" (Some "k3y") all_up)
    as [_ Hup].
  destruct (missing_secret_exits_before_session
              "C:\app" (Some "k3y") network_down) as [_ Hdown].
  destruct (Hunset (or_introl eq_refl)) as (_ & Hs1 & _).
  destruct (Hempty (or_intror eq_refl)) as (_ & Hs2 & _).
  destruct (Hup Hp) as (Hs3 & _ & _ & _ & _ & _ & Hstarted).
  destruct (Hdown Hp) as (_ & _ & _ & _ & Hconnect & _).
  split; [exact Hs1|]. split; [exact Hs2|]. split; [exact Hs3|]. split.
  - apply Hstarted. repeat split.
  - apply (Hconnect "Temporary failure in name resolution"); reflexivity.
Defined.

(** ** The overlay and its animation file *)

Lemma process_frames_raises size src :
  (exists e, In (FrameRaises e) src) ->
  forall acc, exists e, OverlayThread.process_frames size src acc = inl e.
Proof.
  induction src as [|f src IH]; intros [e He] acc.
  - destruct He.
  - destruct f as [id|e']; cbn.
    + destruct He as [He | He]; [discriminate|].
      apply IH. now exists e.
    + now exists e'.
Qed.

Lemma load_gif_unavailable self file :
  asset_unavailable file ->
  exists msg, OverlayThread.load_gif self file = ([], [TkPrint msg]).
Proof.
  intros [-> | H].
  - eexists; reflexivity.
  - destruct file as [|e|src]; cbn in H.
    + destruct H.
    + eexists; reflexivity.
    + destruct (process_frames_raises (OverlayThread.icon_size self) src H [])
        as [e He].
      unfold OverlayThread.load_gif. rewrite He. eexists; reflexivity.
Qed.

Lemma run_unavailable self file w h :
  asset_unavailable file ->
  exists msg,
    OverlayThread.run self file w h =
      (OverlayThread.with_frames self [] false,
       [TkSetup; TkPrint msg; TkPrint "No frames loaded for overlay."]).
Proof.
  intros H. destruct (load_gif_unavailable self file H) as [msg Hmsg].
  exists msg. unfold OverlayThread.run. now rewrite Hmsg.
Qed.

Lemma update_animation_no_frames self :
  OverlayThread.frames self = [] ->
  rendered (snd (OverlayThread.update_animation self)) = 0.
Proof.
  intros Hf. unfold OverlayThread.update_animation.
  destruct (OverlayThread.should_be_visible self),
           (OverlayThread.is_window_hidden self); cbn; rewrite Hf; reflexivity.
Qed.

(** C8: when the animation file is missing or cannot be decoded, [load_gif]
    gives the empty frame list, the overlay thread puts no frame on screen
    (neither in [run], which returns without entering the main loop, nor in
    any later [update_animation]) and returns normally; the start-up
    sequence of a process that has its key still starts the tray and does
    not exit, whatever the later start-up calls meet, and the tray thread
    runs its icon whatever files there are. *)
Theorem missing_asset_renders_nothing :
  forall APP_PATH API_KEY file screen_width screen_height,
    asset_unavailable file ->
    let self := OverlayThread.__init__ (Main.GIF_PATH APP_PATH) ICON_SIZE in
    let result := Main.overlay_thread APP_PATH file screen_width screen_height in
    fst (OverlayThread.load_gif self file) = []
    /\ OverlayThread.frames (fst result) = []
    /\ rendered (snd result) = 0
    /\ ~ In TkMainloop (snd result)
    /\ rendered (snd (OverlayThread.update_animation (fst result))) = 0
    /\ (secret_present API_KEY ->
        forall env,
          In TrayStart (Main.main APP_PATH API_KEY env)
          /\ Main.exit_status (Main.main APP_PATH API_KEY env) = None)
    /\ (forall logo, exists image,
          run_tray_icon logo
          = [IconRun "GeminiAssistant" image "Gemini Assistant" ["Quit"]]).
Proof.
  intros APP_PATH API_KEY file w h H self result.
  destruct (load_gif_unavailable self file H) as [msg Hload].
  destruct (run_unavailable self file w h H) as [msg' Hrun].
  subst result. unfold Main.overlay_thread. fold self. rewrite Hload, Hrun.
  cbn [fst snd]. repeat split.
  - cbn. intros [F | [F | [F | []]]]; discriminate.
  - apply secret_present_truthy in H0.
    unfold Main.main; rewrite H0; cbn; auto.
  - apply secret_present_truthy in H0.
    unfold Main.main; rewrite H0.
    destruct env as [[ea|] [ec|] [en|]]; reflexivity.
  - intros logo. eexists. reflexivity.
Qed.

Lemma missing_asset_renders_nothing_witness :
  OverlayThread.frames
    (fst (Main.overlay_thread "C:\app"
            (GifOpened [FrameOk 0; FrameRaises "broken data stream"; FrameOk 2])
            1920 1080)) = []
  /\ rendered (snd (Main.overlay_thread "C:\app" GifMissing 1920 1080)) = 0.
Proof.
  split.
  - apply (missing_asset_renders_nothing "C:\app" (Some "k3y")
             (GifOpened [FrameOk 0; FrameRaises "broken data stream"; FrameOk 2])
             1920 1080).
    right. exists "broken data stream". cbn. auto.
  - apply (missing_asset_renders_nothing "C:\app" (Some "k3y") GifMissing
             1920 1080).
    left. reflexivity.
Defined.

(** ** Schedules *)

Import GeminiLiveAssistant Pipeline.

(** Case analysis along the [match]es of a loop body, innermost first. *)
Ltac break_step H :=
  repeat match type of H with
         | context [match ?x with _ => _ end] =>
             lazymatch x with
             | context [match _ with _ => _ end] => fail
             | _ => destruct x eqn:?; try discriminate H
             end
         end;
  try (injection H as <- <-).

Lemma exec_app s evs1 evs2 :
  exec s (evs1 ++ evs2) =
    match exec s evs1 with
    | Some (s1, out1) =>
        match exec s1 evs2 with
        | Some (s2, out2) => Some (s2, out1 ++ out2)
        | None => None
        end
    | None => None
    end.
Proof.
  revert s; induction evs1 as [|e evs1 IH]; intros s; cbn.
  - destruct (exec s evs2) as [[s2 out2]|]; reflexivity.
  - destruct (step s e) as [[s1 out1]|]; [|reflexivity].
    rewrite IH. destruct (exec s1 evs1) as [[s2 out2]|]; [|reflexivity].
    destruct (exec s2 evs2) as [[s3 out3]|]; [|reflexivity].
    now rewrite app_assoc.
Qed.

(** An invariant of the steps holds along every schedule. *)
Lemma exec_invariant (P : state -> Prop) :
  (forall s e s' out, P s -> step s e = Some (s', out) -> P s') ->
  forall evs s s' tr, P s -> exec s evs = Some (s', tr) -> P s'.
Proof.
  intros Hstep; induction evs as [|e evs IH]; intros s s' tr Hs H; cbn in H.
  - now injection H as <- <-.
  - destruct (step s e) as [[s1 out1]|] eqn:He; [|discriminate].
    destruct (exec s1 evs) as [[s2 out2]|] eqn:Hr; [|discriminate].
    injection H as <- <-. eapply IH; [|exact Hr]. eapply Hstep; eauto.
Qed.

Lemma reachable_invariant (P : state -> Prop) :
  (forall gif_path icon_size, P (boot gif_path icon_size)) ->
  (forall s e s' out, P s -> step s e = Some (s', out) -> P s') ->
  forall s, reachable s -> P s.
Proof.
  intros H0 Hstep s (gif_path & icon_size & evs & tr & H).
  eapply exec_invariant; eauto.
Qed.

Lemma reachable_step s e s' out :
  reachable s -> step s e = Some (s', out) -> reachable s'.
Proof.
  intros (gif_path & icon_size & evs & tr & H) He.
  exists gif_path, icon_size, (evs ++ [e]), (tr ++ out).
  rewrite exec_app, H. cbn. rewrite He. now rewrite app_nil_r.
Qed.

(** ** The toggle *)

Lemma step_keeps_flags s e s' out :
  step s e = Some (s', out) ->
  is_toggle e = false ->
  is_streaming (app s') = is_streaming (app s)
  /\ overlay (app s') = overlay (app s).
Proof.
  intros H Ht. unfold step in H.
  destruct (torn_down s); [discriminate|].
  destruct e as [x y b p|ev|ev|r|ev|ev].
  - unfold on_mouse_click in H.
    destruct p, b; cbn in H, Ht; try discriminate Ht;
      injection H as <- <-; split; reflexivity.
  - unfold mic_loop in H. break_step H; split; cbn; congruence.
  - unfold screen_loop in H. break_step H; split; cbn; congruence.
  - unfold send_loop in H. break_step H; split; cbn; congruence.
  - unfold receive_loop in H. break_step H; split; cbn; congruence.
  - unfold speaker_loop in H. break_step H; split; cbn; congruence.
Qed.

Lemma exec_keeps_flags evs :
  forall s s' tr,
    existsb is_toggle evs = false ->
    exec s evs = Some (s', tr) ->
    is_streaming (app s') = is_streaming (app s)
    /\ overlay (app s') = overlay (app s).
Proof.
  induction evs as [|e evs IH]; intros s s' tr Ht H; cbn in H, Ht.
  - injection H as <- <-. split; reflexivity.
  - apply orb_false_iff in Ht as [Hte Ht].
    destruct (step s e) as [[s1 out1]|] eqn:He; [|discriminate].
    destruct (exec s1 evs) as [[s2 out2]|] eqn:Hr; [|discriminate].
    injection H as <- <-.
    destruct (step_keeps_flags _ _ _ _ He Hte) as [<- <-].
    eapply IH; eauto.
Qed.

(** C10: the constructors leave the streaming flag and the overlay's
    visibility flag both true, so the assistant starts listening with the
    overlay shown; they stay true along every schedule that serves no press
    of the side button. *)
Theorem starts_streaming_and_visible :
  forall gif_path icon_size,
    let ov := OverlayThread.__init__ gif_path icon_size in
    OverlayThread.should_be_visible ov = true
    /\ is_streaming (GeminiLiveAssistant.__init__ ov) = true
    /\ overlay (GeminiLiveAssistant.__init__ ov) = ov
    /\ (forall evs s tr,
          existsb is_toggle evs = false ->
          exec (boot gif_path icon_size) evs = Some (s, tr) ->
          is_streaming (app s) = true
          /\ OverlayThread.should_be_visible (overlay (app s)) = true).
Proof.
  intros gif_path icon_size ov. repeat split.
  - destruct (exec_keeps_flags evs _ _ _ H H0) as [-> _]. reflexivity.
  - destruct (exec_keeps_flags evs _ _ _ H H0) as [_ ->]. reflexivity.
Qed.

Lemma on_mouse_click_press self x y :
  fst (on_mouse_click self x y Button.x1 true) =
    {| overlay := OverlayThread.set_visibility (overlay self)
                    (negb (is_streaming self));
       audio_in_queue := audio_in_queue self;
       out_queue := out_queue self;
       is_streaming := negb (is_streaming self) |}.
Proof. reflexivity. Qed.

Lemma in_sync_step s e s' out :
  in_sync (app s) -> step s e = Some (s', out) -> in_sync (app s').
Proof.
  unfold in_sync. intros Hs H.
  destruct (is_toggle e) eqn:Ht.
  - destruct e as [x y b p| | | | |]; try discriminate Ht.
    destruct b; try discriminate Ht. destruct p; try discriminate Ht.
    unfold step in H. destruct (torn_down s); [discriminate|].
    cbn in H. injection H as <- <-. reflexivity.
  - destruct (step_keeps_flags _ _ _ _ H Ht) as [-> ->]. exact Hs.
Qed.

Lemma reachable_in_sync s : reachable s -> in_sync (app s).
Proof.
  revert s. apply reachable_invariant.
  - reflexivity.
  - intros; eapply in_sync_step; eauto.
Qed.

(** C5: a press of the side button inverts the streaming flag and hands the
    new value to the overlay, so that, the overlay flag agreeing with the
    streaming flag as it does in every state the program reaches, the
    overlay visibility is inverted too; a second press restores both.
    Releases and presses of any other button change nothing. *)
Theorem toggle_twice_restores :
  forall self x y,
    let once := fst (on_mouse_click self x y Button.x1 true) in
    is_streaming once = negb (is_streaming self)
    /\ OverlayThread.should_be_visible (overlay once) = is_streaming once
    /\ (forall x' y',
          is_streaming (fst (on_mouse_click once x' y' Button.x1 true))
          = is_streaming self)
    /\ (in_sync self ->
          OverlayThread.should_be_visible (overlay once)
          = negb (OverlayThread.should_be_visible (overlay self))
          /\ forall x' y',
               fst (on_mouse_click once x' y' Button.x1 true) = self)
    /\ (forall s, reachable s -> in_sync (app s))
    /\ (forall button, on_mouse_click self x y button false = (self, []))
    /\ (forall button, button <> Button.x1 ->
          on_mouse_click self x y button true = (self, [])).
Proof.
  intros self x y once. subst once.
  rewrite on_mouse_click_press. cbn [is_streaming overlay].
  split; [reflexivity|]. split; [reflexivity|].
  split; [intros; rewrite on_mouse_click_press; cbn; apply negb_involutive|].
  split; [|split; [exact reachable_in_sync|split]].
  - unfold in_sync. intros Hsync. split.
    + cbn. now rewrite Hsync.
    + intros x' y'. rewrite on_mouse_click_press. cbn.
      rewrite negb_involutive.
      destruct self as [ov aq oq st]; cbn in *.
      destruct ov; cbn in *. now subst.
  - reflexivity.
  - intros button Hb. destruct button; try reflexivity. now destruct Hb.
Qed.

Lemma toggle_twice_restores_witness :
  let self := GeminiLiveAssistant.__init__ (OverlayThread.__init__ "loading.gif" 100) in
  let once := fst (on_mouse_click self 10 20 Button.x1 true) in
  OverlayThread.should_be_visible (overlay once)
  = negb (OverlayThread.should_be_visible (overlay self))
  /\ forall x' y', fst (on_mouse_click once x' y' Button.x1 true) = self.
Proof.
  apply (toggle_twice_restores
           (GeminiLiveAssistant.__init__ (OverlayThread.__init__ "loading.gif" 100))
           10%Z 20%Z).
  reflexivity.
Defined.

(** ** The queues *)

Lemma put_nowait_Some {A} (x : A) q q' :
  AsyncQueue.put_nowait x q = Some q' ->
  AsyncQueue.full q = false
  /\ AsyncQueue.maxsize q' = AsyncQueue.maxsize q
  /\ AsyncQueue.items q' = AsyncQueue.items q ++ [x].
Proof.
  unfold AsyncQueue.put_nowait. destruct (AsyncQueue.full q); [discriminate|].
  intros H; injection H as <-. repeat split.
Qed.

Lemma get_nowait_Some {A} (q : AsyncQueue.t A) x q' :
  AsyncQueue.get_nowait q = Some (x, q') ->
  AsyncQueue.maxsize q' = AsyncQueue.maxsize q
  /\ AsyncQueue.items q = x :: AsyncQueue.items q'.
Proof.
  unfold AsyncQueue.get_nowait. destruct (AsyncQueue.items q); [discriminate|].
  intros H; injection H as <- <-. split; reflexivity.
Qed.

Lemma full_bounded {A} (q : AsyncQueue.t A) :
  (0 < AsyncQueue.maxsize q)%Z ->
  (AsyncQueue.full q = true
   <-> (AsyncQueue.maxsize q <= Z.of_nat (AsyncQueue.qsize q))%Z).
Proof.
  intros Hpos. unfold AsyncQueue.full.
  destruct (Z.leb_spec (AsyncQueue.maxsize q) 0); [lia|].
  apply Z.leb_le.
Qed.

Lemma unbounded_put_nowait {A} (x : A) q :
  (AsyncQueue.maxsize q <= 0)%Z ->
  AsyncQueue.put_nowait x q
  = Some (AsyncQueue.mk (AsyncQueue.maxsize q) (AsyncQueue.items q ++ [x])).
Proof.
  intros H. unfold AsyncQueue.put_nowait, AsyncQueue.full.
  destruct (Z.leb_spec (AsyncQueue.maxsize q) 0); [reflexivity|lia].
Qed.

Lemma enqueued_app a b : enqueued (a ++ b) = enqueued a ++ enqueued b.
Proof. apply flat_map_app. Qed.

Lemma dequeued_app a b : dequeued (a ++ b) = dequeued a ++ dequeued b.
Proof. apply flat_map_app. Qed.

Lemma sent_app a b : sent (a ++ b) = sent a ++ sent b.
Proof. apply flat_map_app. Qed.

Lemma received_app a b : received (a ++ b) = received a ++ received b.
Proof. apply flat_map_app. Qed.

Lemma discarded_app a b : discarded (a ++ b) = discarded a ++ discarded b.
Proof. apply flat_map_app. Qed.

Lemma played_app a b : played (a ++ b) = played a ++ played b.
Proof. apply flat_map_app. Qed.

(** The clearing loop stops on the empty queue, having dropped every buffer
    that was queued. *)
Lemma clear_queue_spec fuel :
  forall q,
    AsyncQueue.qsize q <= fuel ->
    clear_queue fuel q
    = (AsyncQueue.mk (AsyncQueue.maxsize q) [],
       map InDiscard (AsyncQueue.items q)).
Proof.
  induction fuel as [|fuel IH]; intros [m l] Hq;
    unfold AsyncQueue.qsize in Hq; cbn in Hq.
  - destruct l; [reflexivity | cbn in Hq; lia].
  - destruct l as [|b l]; [reflexivity|]. cbn in Hq.
    change (clear_queue (S fuel) (AsyncQueue.mk m (b :: l)))
      with (let '(q'', dropped) := clear_queue fuel (AsyncQueue.mk m l) in
            (q'', InDiscard b :: dropped)).
    rewrite IH by (unfold AsyncQueue.qsize; cbn; lia).
    reflexivity.
Qed.

Lemma receive_loop_exhausted self :
  receive_loop self RecvExhausted
  = (with_audio_in_queue self
       (AsyncQueue.mk (AsyncQueue.maxsize (audio_in_queue self)) []),
     map InDiscard (AsyncQueue.items (audio_in_queue self))).
Proof.
  unfold receive_loop. now rewrite clear_queue_spec by reflexivity.
Qed.

Lemma discards_only l :
  enqueued (map InDiscard l) = [] /\ dequeued (map InDiscard l) = []
  /\ sent (map InDiscard l) = [] /\ received (map InDiscard l) = []
  /\ played (map InDiscard l) = [] /\ discarded (map InDiscard l) = l
  /\ device_reads (map InDiscard l) = 0 /\ captures (map InDiscard l) = 0.
Proof.
  induction l as [|b l (H1 & H2 & H3 & H4 & H5 & H6 & H7 & H8)]; cbn.
  - repeat split.
  - repeat split; auto. now rewrite <- H6 at 2.
Qed.

(** What one step does to the outbound queue. *)
Lemma step_out_queue s e s' out :
  step s e = Some (s', out) ->
  AsyncQueue.maxsize (out_queue (app s')) = AsyncQueue.maxsize (out_queue (app s))
  /\ AsyncQueue.items (out_queue (app s)) ++ enqueued out
     = dequeued out ++ AsyncQueue.items (out_queue (app s'))
  /\ sent out = dequeued out
  /\ (enqueued out <> [] ->
      AsyncQueue.full (out_queue (app s)) = false /\ is_put e = true)
  /\ List.length (enqueued out) <= 1
  /\ (is_send e = false -> dequeued out = []).
Proof.
  intros H. unfold step in H.
  destruct (torn_down s); [discriminate|].
  assert (Hsame : forall a : GeminiLiveAssistant.t,
             out_queue a = out_queue (app s) ->
             enqueued out = [] -> dequeued out = [] -> sent out = [] ->
             AsyncQueue.maxsize (out_queue a)
             = AsyncQueue.maxsize (out_queue (app s))
             /\ AsyncQueue.items (out_queue (app s)) ++ enqueued out
                = dequeued out ++ AsyncQueue.items (out_queue a)
             /\ sent out = dequeued out
             /\ (enqueued out <> [] ->
                 AsyncQueue.full (out_queue (app s)) = false
                 /\ is_put e = true)
             /\ List.length (enqueued out) <= 1
             /\ (is_send e = false -> dequeued out = [])).
  { intros a -> -> -> ->. cbn. rewrite app_nil_r.
    repeat split; auto; congruence. }
  destruct e as [x y b p|ev|ev|r|ev|ev].
  - unfold on_mouse_click in H. break_step H; now apply Hsame.
  - unfold mic_loop in H. break_step H; try (now apply Hsame).
    apply put_nowait_Some in Heqo as (Hf & Hm & Hi).
    cbn. rewrite Hi. repeat split; auto.
  - unfold screen_loop in H. break_step H; try (now apply Hsame).
    apply put_nowait_Some in Heqo as (Hf & Hm & Hi).
    cbn. rewrite Hi. repeat split; auto.
  - unfold send_loop in H. break_step H; cbn.
    apply get_nowait_Some in Heqo as (Hm & Hi).
    rewrite Hi, app_nil_r. repeat split; intros; auto; congruence.
  - destruct ev as [r| |e].
    + unfold receive_loop in H. break_step H; now apply Hsame.
    + rewrite receive_loop_exhausted in H. injection H as <- <-.
      destruct (discards_only (AsyncQueue.items (audio_in_queue (app s))))
        as (H1 & H2 & H3 & _).
      now apply Hsame.
    + cbn in H. injection H as <- <-. now apply Hsame.
  - unfold speaker_loop in H. break_step H; now apply Hsame.
Qed.

Lemma exec_out_queue evs :
  forall s s' tr,
    exec s evs = Some (s', tr) ->
    AsyncQueue.maxsize (out_queue (app s')) = AsyncQueue.maxsize (out_queue (app s))
    /\ AsyncQueue.items (out_queue (app s)) ++ enqueued tr
       = dequeued tr ++ AsyncQueue.items (out_queue (app s'))
    /\ sent tr = dequeued tr.
Proof.
  induction evs as [|e evs IH]; intros s s' tr H; cbn in H.
  - injection H as <- <-. cbn. rewrite app_nil_r. repeat split.
  - destruct (step s e) as [[s1 out1]|] eqn:He; [|discriminate].
    destruct (exec s1 evs) as [[s2 out2]|] eqn:Hr; [|discriminate].
    injection H as <- <-.
    apply step_out_queue in He as (Hm1 & Hi1 & Hs1 & _).
    apply IH in Hr as (Hm2 & Hi2 & Hs2).
    rewrite enqueued_app, dequeued_app, sent_app. repeat split.
    + congruence.
    + rewrite app_assoc, Hi1, <- !app_assoc. now rewrite Hi2.
    + congruence.
Qed.

Lemma step_keeps_tasks_alive s raised s' out :
  step s (Send raised) = Some (s', out) ->
  torn_down s' = false /\ mic s' = mic s /\ screen s' = screen s
  /\ speaker s' = speaker s.
Proof.
  unfold step. destruct (torn_down s) eqn:Ht; [discriminate|].
  destruct (send_loop (app s) raised) as [[a o]|]; [|discriminate].
  intros H; injection H as <- <-. repeat split. exact Ht.
Qed.

(** The sender, served once for each queued chunk, empties the queue and
    hands the chunks to the session in queue order, whether or not a send
    raises. *)
Lemma send_loop_drains raiseds :
  forall s,
    torn_down s = false ->
    List.length raiseds = AsyncQueue.qsize (out_queue (app s)) ->
    exists s' out,
      exec s (map Send raiseds) = Some (s', out)
      /\ sent out = AsyncQueue.items (out_queue (app s))
      /\ AsyncQueue.items (out_queue (app s')) = [].
Proof.
  induction raiseds as [|r raiseds IH]; intros s Ht Hlen;
    unfold AsyncQueue.qsize in Hlen.
  - exists s, []. cbn.
    destruct (AsyncQueue.items (out_queue (app s))); [auto | discriminate].
  - destruct (AsyncQueue.items (out_queue (app s))) as [|c rest] eqn:Hi;
      [discriminate|].
    assert (Hstep : step s (Send r)
                    = Some ({| app := with_out_queue (app s)
                                        (AsyncQueue.mk
                                           (AsyncQueue.maxsize (out_queue (app s)))
                                           rest);
                               mic := mic s; screen := screen s;
                               speaker := speaker s |},
                            [OutGet c; SessionSend c r])).
    { unfold step. rewrite Ht. unfold send_loop, AsyncQueue.get_nowait.
      now rewrite Hi. }
    destruct (step_keeps_tasks_alive _ _ _ _ Hstep) as (Ht' & _).
    destruct (IH _ Ht') as (s' & out & He & Hs & Hq).
    { cbn in *. unfold AsyncQueue.qsize. cbn. lia. }
    exists s', ([OutGet c; SessionSend c r] ++ out).
    cbn [map exec]. rewrite Hstep, He. repeat split; auto.
    rewrite sent_app, Hs. reflexivity.
Qed.

(** C1: along every schedule, the chunks handed to the session are, in
    order, a prefix of the chunks enqueued, and the rest is what the queue
    still holds, in order; every iteration of the sender takes exactly the
    head of the queue and sends it, whatever its kind and whether or not the
    send raises; and the sender, served once per queued chunk, sends all of
    them. *)
Theorem send_loop_fifo :
  forall gif_path icon_size evs s tr,
    exec (boot gif_path icon_size) evs = Some (s, tr) ->
    enqueued tr = sent tr ++ AsyncQueue.items (out_queue (app s))
    /\ (forall raised s' out,
          step s (Send raised) = Some (s', out) ->
          exists msg,
            AsyncQueue.items (out_queue (app s))
            = msg :: AsyncQueue.items (out_queue (app s'))
            /\ out = [OutGet msg; SessionSend msg raised])
    /\ (torn_down s = false ->
        forall raiseds,
          List.length raiseds = AsyncQueue.qsize (out_queue (app s)) ->
          exists s' out,
            exec s (map Send raiseds) = Some (s', out)
            /\ sent (tr ++ out) = enqueued tr
            /\ AsyncQueue.items (out_queue (app s')) = []).
Proof.
  intros gif_path icon_size evs s tr H.
  apply exec_out_queue in H as (_ & Hi & Hs). cbn in Hi.
  assert (Hfifo : enqueued tr = sent tr ++ AsyncQueue.items (out_queue (app s)))
    by congruence.
  split; [exact Hfifo|]. split.
  - intros raised s' out Hstep. unfold step in Hstep.
    destruct (torn_down s); [discriminate|].
    unfold send_loop in Hstep.
    destruct (AsyncQueue.get_nowait (out_queue (app s))) as [[msg q]|] eqn:Hg;
      [|discriminate].
    injection Hstep as <- <-. exists msg.
    apply get_nowait_Some in Hg as (_ & Hg). split; [exact Hg | reflexivity].
  - intros Ht raiseds Hlen.
    destruct (send_loop_drains raiseds s Ht Hlen) as (s' & out & He & Hsent & Hq).
    exists s', out. repeat split; auto.
    rewrite sent_app, Hsent. now symmetry.
Qed.


(** ** Capacity of the outbound queue *)

Lemma reachable_out_queue_bound s :
  reachable s ->
  AsyncQueue.maxsize (out_queue (app s)) = 5%Z
  /\ AsyncQueue.qsize (out_queue (app s)) <= 5.
Proof.
  revert s. apply reachable_invariant.
  - intros; split; [reflexivity | cbn; lia].
  - intros s e s' out [Hm Hq] H.
    apply step_out_queue in H as (Hm' & Hi & _ & Hfull & Hone & _).
    split; [congruence|].
    unfold AsyncQueue.qsize in *.
    apply (f_equal (@List.length _)) in Hi. rewrite !length_app in Hi.
    destruct (enqueued out) as [|c l] eqn:He.
    + cbn in Hi. lia.
    + destruct Hfull as [Hnf _]; [discriminate|].
      assert (Hlt : ~ (5 <= Z.of_nat (List.length
                                        (AsyncQueue.items (out_queue (app s)))))%Z).
      { intros Hge.
        assert (Hf : AsyncQueue.full (out_queue (app s)) = true).
        { apply full_bounded; rewrite Hm; [lia | exact Hge]. }
        congruence. }
      lia.
Qed.

Lemma full_blocks_put s e :
  AsyncQueue.full (out_queue (app s)) = true ->
  is_put e = true ->
  step s e = None.
Proof.
  intros Hf He. unfold step. destruct (torn_down s); [reflexivity|].
  destruct e as [x y b p|[r|r|]|[|r| |]|r|ev|ev]; try discriminate He.
  - unfold mic_loop. destruct (mic s); try reflexivity.
    unfold AsyncQueue.put_nowait. now rewrite Hf.
  - unfold screen_loop. destruct (screen s); try reflexivity.
    unfold AsyncQueue.put_nowait. now rewrite Hf.
Qed.

Lemma step_without_send s e s' out :
  step s e = Some (s', out) ->
  is_send e = false ->
  AsyncQueue.full (out_queue (app s)) = true ->
  out_queue (app s') = out_queue (app s).
Proof.
  intros H Hns Hf.
  destruct (step_out_queue _ _ _ _ H) as (Hm & Hi & _ & Hfull & _ & Hdeq).
  rewrite (Hdeq Hns) in Hi. cbn in Hi.
  destruct (enqueued out) as [|c l].
  - rewrite app_nil_r in Hi.
    destruct (out_queue (app s')), (out_queue (app s)); cbn in *; congruence.
  - destruct Hfull as [Hnf _]; [discriminate | congruence].
Qed.

Lemma exec_without_send evs :
  forall s s' tr,
    exec s evs = Some (s', tr) ->
    existsb is_send evs = false ->
    AsyncQueue.full (out_queue (app s)) = true ->
    out_queue (app s') = out_queue (app s).
Proof.
  induction evs as [|e evs IH]; intros s s' tr H Hns Hf; cbn in H, Hns.
  - now injection H as <- <-.
  - apply orb_false_iff in Hns as [Hne Hns].
    destruct (step s e) as [[s1 out1]|] eqn:He; [|discriminate].
    destruct (exec s1 evs) as [[s2 out2]|] eqn:Hr; [|discriminate].
    injection H as <- <-.
    pose proof (step_without_send _ _ _ _ He Hne Hf) as Hq.
    rewrite <- Hq. eapply IH; eauto. now rewrite Hq.
Qed.

(** C4: in every state the program reaches the outbound queue has capacity
    5 and holds at most 5 chunks.  When it holds 5, no [put] of the
    microphone or screen loop can complete; in whatever way the schedule
    goes on, a [put] completes only after an iteration of the sender has
    taken a chunk out; and right after such an iteration a waiting [put]
    does complete, filling the queue again. *)
Theorem out_queue_backpressure :
  forall s,
    reachable s ->
    AsyncQueue.maxsize (out_queue (app s)) = 5%Z
    /\ AsyncQueue.qsize (out_queue (app s)) <= 5
    /\ (AsyncQueue.qsize (out_queue (app s)) = 5 ->
        (forall e, is_put e = true -> step s e = None)
        /\ (forall pre e s' tr,
              is_put e = true ->
              exec s (pre ++ [e]) = Some (s', tr) ->
              existsb is_send pre = true)
        /\ (forall raised s1 out1,
              step s (Send raised) = Some (s1, out1) ->
              AsyncQueue.qsize (out_queue (app s1)) = 4
              /\ (forall c, mic s = MicPutting c ->
                    exists s2,
                      step s1 (Mic MicPutDone) = Some (s2, [OutPut c])
                      /\ AsyncQueue.qsize (out_queue (app s2)) = 5)
              /\ (forall frame, screen s = ScreenPutting frame ->
                    exists s2,
                      step s1 (Screen ScreenPutDone)
                      = Some (s2, [OutPut frame; Sleep 1.0])
                      /\ AsyncQueue.qsize (out_queue (app s2)) = 5))).
Proof.
  intros s Hr. destruct (reachable_out_queue_bound s Hr) as [Hm Hq].
  split; [exact Hm|]. split; [exact Hq|]. intros H5.
  assert (Hf : AsyncQueue.full (out_queue (app s)) = true).
  { apply full_bounded; rewrite Hm, ?H5; lia. }
  split; [|split].
  - intros e He. now apply full_blocks_put.
  - intros pre e s' tr He H.
    destruct (existsb is_send pre) eqn:Hns; [reflexivity|exfalso].
    rewrite exec_app in H.
    destruct (exec s pre) as [[s1 out1]|] eqn:Hpre; [|discriminate].
    pose proof (exec_without_send _ _ _ _ Hpre Hns Hf) as Hsame.
    cbn in H. rewrite full_blocks_put in H; [discriminate| |exact He].
    now rewrite Hsame.
  - intros raised s1 out1 Hs.
    destruct (step_keeps_tasks_alive _ _ _ _ Hs) as (Ht1 & Hmic & Hscr & _).
    unfold step in Hs. destruct (torn_down s); [discriminate|].
    unfold send_loop in Hs.
    destruct (AsyncQueue.get_nowait (out_queue (app s))) as [[msg q]|] eqn:Hg;
      [|discriminate].
    injection Hs as <- <-.
    apply get_nowait_Some in Hg as (Hmq & Hiq).
    assert (Hq4 : AsyncQueue.qsize q = 4).
    { unfold AsyncQueue.qsize in *. rewrite Hiq in H5. cbn in H5. lia. }
    assert (Hput : forall c,
               AsyncQueue.put_nowait c q
               = Some (AsyncQueue.mk (AsyncQueue.maxsize q)
                         (AsyncQueue.items q ++ [c]))).
    { intros c. unfold AsyncQueue.put_nowait, AsyncQueue.full.
      rewrite Hmq, Hm, Hq4. reflexivity. }
    split; [exact Hq4|]. split.
    + intros c Hc. eexists. unfold step. cbn in Ht1. rewrite Ht1.
      cbn [app mic]. rewrite Hc. cbn. rewrite Hput. split; [reflexivity|].
      unfold AsyncQueue.qsize in *. cbn. rewrite length_app. cbn. lia.
    + intros frame Hc. eexists. unfold step. cbn in Ht1. rewrite Ht1.
      cbn [app screen]. rewrite Hc. cbn. rewrite Hput. split; [reflexivity|].
      unfold AsyncQueue.qsize in *. cbn. rewrite length_app. cbn. lia.
Qed.

(** ** The inbound queue *)

Lemma truthy_bytes_audio r :
  audio_of [r] = if truthy_bytes (r_data r)
                 then match r_data r with Some d => [d] | None => [] end
                 else [].
Proof.
  unfold audio_of. cbn. destruct (r_data r) as [[|b d]|]; reflexivity.
Qed.

Lemma audio_of_cons r rs : audio_of (r :: rs) = audio_of [r] ++ audio_of rs.
Proof. unfold audio_of. cbn. now rewrite app_nil_r. Qed.

(** What one step does to the inbound queue. *)
Lemma step_audio_in s e s' out :
  step s e = Some (s', out) ->
  AsyncQueue.maxsize (audio_in_queue (app s'))
  = AsyncQueue.maxsize (audio_in_queue (app s))
  /\ (is_turn_end e = false ->
      AsyncQueue.items (audio_in_queue (app s)) ++ received out
      = played out ++ AsyncQueue.items (audio_in_queue (app s'))
      /\ discarded out = [])
  /\ (is_turn_end e = true ->
      AsyncQueue.items (audio_in_queue (app s')) = []
      /\ discarded out = AsyncQueue.items (audio_in_queue (app s))
      /\ played out = [] /\ received out = []).
Proof.
  intros H. unfold step in H.
  destruct (torn_down s); [discriminate|].
  assert (Hsame : forall a : GeminiLiveAssistant.t,
             audio_in_queue a = audio_in_queue (app s) ->
             is_turn_end e = false ->
             received out = [] -> played out = [] -> discarded out = [] ->
             AsyncQueue.maxsize (audio_in_queue a)
             = AsyncQueue.maxsize (audio_in_queue (app s))
             /\ (is_turn_end e = false ->
                 AsyncQueue.items (audio_in_queue (app s)) ++ received out
                 = played out ++ AsyncQueue.items (audio_in_queue a)
                 /\ discarded out = [])
             /\ (is_turn_end e = true ->
                 AsyncQueue.items (audio_in_queue a) = []
                 /\ discarded out = AsyncQueue.items (audio_in_queue (app s))
                 /\ played out = [] /\ received out = [])).
  { intros a -> -> -> -> ->. cbn. rewrite app_nil_r.
    repeat split; auto; discriminate. }
  destruct e as [x y b p|ev|ev|r|ev|ev].
  - unfold on_mouse_click in H. break_step H; now apply Hsame.
  - unfold mic_loop in H. break_step H; now apply Hsame.
  - unfold screen_loop in H. break_step H; now apply Hsame.
  - unfold send_loop in H. break_step H; now apply Hsame.
  - destruct ev as [r| |e].
    + unfold receive_loop in H. break_step H; try (now apply Hsame).
      apply put_nowait_Some in Heqo0 as (_ & Hm & Hi).
      cbn. rewrite Hi. repeat split; auto; discriminate.
    + rewrite receive_loop_exhausted in H. injection H as <- <-.
      destruct (discards_only (AsyncQueue.items (audio_in_queue (app s))))
        as (_ & _ & _ & H4 & H5 & H6 & _).
      cbn. repeat split; auto; discriminate.
    + cbn in H. injection H as <- <-. now apply Hsame.
  - unfold speaker_loop in H. break_step H; try (now apply Hsame).
    all: apply get_nowait_Some in Heqo as (Hm & Hi);
      cbn; rewrite Hi, app_nil_r; repeat split; auto; discriminate.
Qed.

(** Between two turn boundaries nothing is dropped: what was queued or
    received has been played, in order, or is still queued. *)
Lemma exec_between_boundaries evs :
  forall s s' tr,
    existsb is_turn_end evs = false ->
    exec s evs = Some (s', tr) ->
    AsyncQueue.items (audio_in_queue (app s)) ++ received tr
    = played tr ++ AsyncQueue.items (audio_in_queue (app s'))
    /\ discarded tr = [].
Proof.
  induction evs as [|e evs IH]; intros s s' tr Hn H; cbn in H, Hn.
  - injection H as <- <-. cbn. now rewrite app_nil_r.
  - apply orb_false_iff in Hn as [Hne Hn].
    destruct (step s e) as [[s1 out1]|] eqn:He; [|discriminate].
    destruct (exec s1 evs) as [[s2 out2]|] eqn:Hr; [|discriminate].
    injection H as <- <-.
    apply step_audio_in in He as (_ & He & _). destruct (He Hne) as [Hi1 Hd1].
    destruct (IH _ _ _ Hn Hr) as [Hi2 Hd2].
    rewrite received_app, played_app, discarded_app, Hd1, Hd2.
    split; [|reflexivity].
    rewrite app_assoc, Hi1, <- !app_assoc. now rewrite Hi2.
Qed.

Lemma reachable_audio_in_unbounded s :
  reachable s -> AsyncQueue.maxsize (audio_in_queue (app s)) = 0%Z.
Proof.
  revert s. apply reachable_invariant.
  - reflexivity.
  - intros s e s' out Hm H. apply step_audio_in in H as (Hm' & _). congruence.
Qed.

Lemma step_receive_response s r :
  torn_down s = false ->
  (AsyncQueue.maxsize (audio_in_queue (app s)) <= 0)%Z ->
  exists s' out,
    step s (Receive (RecvResponse r)) = Some (s', out)
    /\ AsyncQueue.items (audio_in_queue (app s'))
       = AsyncQueue.items (audio_in_queue (app s)) ++ audio_of [r]
    /\ AsyncQueue.maxsize (audio_in_queue (app s'))
       = AsyncQueue.maxsize (audio_in_queue (app s))
    /\ received out = audio_of [r] /\ played out = [] /\ discarded out = []
    /\ mic s' = mic s /\ screen s' = screen s /\ speaker s' = speaker s.
Proof.
  intros Ht Hm. unfold step. rewrite Ht. unfold receive_loop.
  rewrite truthy_bytes_audio.
  destruct (truthy_bytes (r_data r)) eqn:Hd.
  - destruct (r_data r) as [d|]; [|discriminate].
    rewrite unbounded_put_nowait by exact Hm.
    do 2 eexists. split; [reflexivity|]. cbn. repeat split.
  - destruct (truthy_str (r_text r)); [destruct (r_text r)|];
      do 2 eexists; (split; [reflexivity|]); cbn; rewrite app_nil_r;
      repeat split.
Qed.

(** A turn whose responses all arrive pushes their audio, in order. *)
Lemma exec_turn_events rs :
  forall s,
    torn_down s = false ->
    (AsyncQueue.maxsize (audio_in_queue (app s)) <= 0)%Z ->
    exists s' tr,
      exec s (turn_events rs) = Some (s', tr)
      /\ AsyncQueue.items (audio_in_queue (app s'))
         = AsyncQueue.items (audio_in_queue (app s)) ++ audio_of rs
      /\ AsyncQueue.maxsize (audio_in_queue (app s'))
         = AsyncQueue.maxsize (audio_in_queue (app s))
      /\ received tr = audio_of rs /\ played tr = [] /\ discarded tr = []
      /\ mic s' = mic s /\ screen s' = screen s /\ speaker s' = speaker s.
Proof.
  induction rs as [|r rs IH]; intros s Ht Hm.
  - exists s, []. cbn. rewrite app_nil_r. repeat split.
  - destruct (step_receive_response s r Ht Hm)
      as (s1 & out1 & Hs & Hi1 & Hm1 & Hr1 & Hp1 & Hd1 & Hmic & Hscr & Hspk).
    assert (Ht1 : torn_down s1 = false).
    { unfold torn_down in *. now rewrite Hmic, Hspk. }
    destruct (IH s1 Ht1) as
      (s2 & out2 & He & Hi2 & Hm2 & Hr2 & Hp2 & Hd2 & Hmic2 & Hscr2 & Hspk2).
    { now rewrite Hm1. }
    exists s2, (out1 ++ out2). cbn [turn_events map exec].
    fold (turn_events rs). rewrite Hs, He.
    rewrite received_app, played_app, discarded_app.
    rewrite Hr1, Hr2, Hp1, Hp2, Hd1, Hd2, Hi2, Hi1, (audio_of_cons r rs).
    rewrite <- app_assoc. repeat split; congruence.
Qed.

(** The player, served once for each queued buffer, writes them all to the
    device in order. *)
Lemma exec_player_takes n :
  forall s,
    torn_down s = false ->
    speaker s = SpeakerPlaying ->
    n = AsyncQueue.qsize (audio_in_queue (app s)) ->
    exists s' tr,
      exec s (player_takes n) = Some (s', tr)
      /\ played tr = AsyncQueue.items (audio_in_queue (app s))
      /\ AsyncQueue.items (audio_in_queue (app s')) = []
      /\ discarded tr = [] /\ received tr = [].
Proof.
  induction n as [|n IH]; intros s Ht Hsp Hn; unfold AsyncQueue.qsize in Hn.
  - exists s, []. cbn.
    destruct (AsyncQueue.items (audio_in_queue (app s))); [auto | discriminate].
  - destruct (AsyncQueue.items (audio_in_queue (app s))) as [|b rest] eqn:Hi;
      [discriminate|].
    set (s1 := {| app := with_audio_in_queue (app s)
                           (AsyncQueue.mk
                              (AsyncQueue.maxsize (audio_in_queue (app s)))
                              rest);
                  mic := mic s; screen := screen s;
                  speaker := SpeakerPlaying |}).
    assert (Hstep : step s (Speaker (SpeakerWrite None))
                    = Some (s1, [InGet b; StreamWrite b])).
    { unfold step. rewrite Ht. unfold speaker_loop, AsyncQueue.get_nowait.
      now rewrite Hsp, Hi. }
    assert (Ht1 : torn_down s1 = false).
    { unfold torn_down in *. cbn. destruct (mic s); auto. }
    destruct (IH s1 Ht1 eq_refl) as (s' & out & He & Hp & Hq & Hd & Hrc).
    { cbn in *. unfold AsyncQueue.qsize. cbn. lia. }
    exists s', ([InGet b; StreamWrite b] ++ out).
    change (player_takes (S n))
      with (Speaker (SpeakerWrite None) :: player_takes n).
    cbn [exec]. rewrite Hstep, He.
    rewrite played_app, discarded_app, received_app, Hp, Hd, Hrc.
    repeat split; auto.
Qed.

Lemma step_receive_tasks s ev s' out :
  step s (Receive ev) = Some (s', out) ->
  torn_down s = false /\ torn_down s' = false
  /\ mic s' = mic s /\ screen s' = screen s /\ speaker s' = speaker s.
Proof.
  unfold step. destruct (torn_down s) eqn:Ht; [discriminate|].
  destruct (receive_loop (app s) ev) as [a o].
  intros H; injection H as <- <-. repeat split. exact Ht.
Qed.

Lemma is_turn_end_inv e : is_turn_end e = true -> e = Receive RecvExhausted.
Proof.
  destruct e as [| | | |[| |]|]; cbn; intros H; try discriminate H. reflexivity.
Qed.

Lemma step_receive_raises s e :
  torn_down s = false ->
  step s (Receive (RecvRaises e)) = Some (s, []).
Proof.
  intros Ht. unfold step. rewrite Ht. cbn. now destruct s.
Qed.

(** C2: when a turn ends (its iterator is exhausted), the receiver empties
    the inbound queue: every buffer queued before the boundary is dropped
    unplayed and the queue has length 0.  What is pushed after the boundary
    is not dropped by it: until the next boundary every such buffer has
    been written to the device or is still queued, in arrival order, and
    the player, served once per buffer, writes them all. *)
Theorem turn_end_flushes_inbound_queue :
  forall s s0 out,
    step s (Receive RecvExhausted) = Some (s0, out) ->
    AsyncQueue.qsize (audio_in_queue (app s0)) = 0
    /\ discarded out = AsyncQueue.items (audio_in_queue (app s))
    /\ played out = []
    /\ (forall evs s1 tr,
          existsb is_turn_end evs = false ->
          exec s0 evs = Some (s1, tr) ->
          received tr = played tr ++ AsyncQueue.items (audio_in_queue (app s1))
          /\ discarded tr = [])
    /\ (reachable s -> speaker s = SpeakerPlaying ->
        forall rs,
        exists s1 tr,
          exec s0 (turn_events rs ++ player_takes (List.length (audio_of rs)))
          = Some (s1, tr)
          /\ received tr = audio_of rs
          /\ played tr = audio_of rs
          /\ discarded tr = []
          /\ AsyncQueue.items (audio_in_queue (app s1)) = []).
Proof.
  intros s s0 out H.
  destruct (step_audio_in _ _ _ _ H) as (Hm & _ & Hend).
  destruct (Hend eq_refl) as (Hi & Hd & Hp & Hrcv).
  destruct (step_receive_tasks _ _ _ _ H) as (Ht & Ht0 & Hmic & Hscr & Hspk).
  unfold AsyncQueue.qsize. rewrite Hi.
  split; [reflexivity|]. split; [exact Hd|]. split; [exact Hp|]. split.
  - intros evs s1 tr Hn He.
    destruct (exec_between_boundaries evs _ _ _ Hn He) as [Hq Hdis].
    rewrite Hi in Hq. cbn in Hq. auto.
  - intros Hr Hplaying rs.
    pose proof (reachable_audio_in_unbounded _ (reachable_step _ _ _ _ Hr H))
      as Hm0.
    destruct (exec_turn_events rs s0 Ht0) as
      (s1 & tr1 & He1 & Hi1 & Hm1 & Hr1 & Hp1 & Hd1 & Hmic1 & Hscr1 & Hspk1).
    { rewrite Hm0. lia. }
    rewrite Hi in Hi1. cbn in Hi1.
    assert (Ht1 : torn_down s1 = false).
    { unfold torn_down in *. now rewrite Hmic1, Hspk1. }
    destruct (exec_player_takes (List.length (audio_of rs)) s1 Ht1)
      as (s2 & tr2 & He2 & Hp2 & Hi2 & Hd2 & Hr2).
    { congruence. }
    { unfold AsyncQueue.qsize. now rewrite Hi1. }
    exists s2, (tr1 ++ tr2). rewrite exec_app, He1, He2.
    rewrite received_app, played_app, discarded_app.
    rewrite Hr1, Hp1, Hd1, Hp2, Hd2, Hr2, Hi1, app_nil_r.
    repeat split; auto.
Qed.

(** C9: a turn that raises before its iterator is exhausted leaves the
    inbound queue as it is: nothing is dropped, the buffers queued before
    the turn and those the turn pushed before failing are all still queued,
    in order, and the player, served once per buffer, writes them all to
    the device.  Only the exhaustion of a turn's iterator drops buffers: the
    same turn ending normally empties the queue, and along any schedule
    without such an end nothing is dropped. *)
Theorem failed_turn_skips_flush :
  forall s rs e,
    reachable s ->
    torn_down s = false ->
    (exists s1 tr,
       exec s (turn_events rs ++ [Receive (RecvRaises e)]) = Some (s1, tr)
       /\ discarded tr = []
       /\ AsyncQueue.items (audio_in_queue (app s1))
          = AsyncQueue.items (audio_in_queue (app s)) ++ audio_of rs
       /\ (speaker s = SpeakerPlaying ->
           exists s2 tr2,
             exec s1 (player_takes (AsyncQueue.qsize (audio_in_queue (app s1))))
             = Some (s2, tr2)
             /\ played tr2
                = AsyncQueue.items (audio_in_queue (app s)) ++ audio_of rs
             /\ discarded tr2 = []))
    /\ (exists s1 tr,
          exec s (turn_events rs ++ [Receive RecvExhausted]) = Some (s1, tr)
          /\ discarded tr
             = AsyncQueue.items (audio_in_queue (app s)) ++ audio_of rs
          /\ AsyncQueue.items (audio_in_queue (app s1)) = [])
    /\ (forall evs s1 tr,
          existsb is_turn_end evs = false ->
          exec s evs = Some (s1, tr) ->
          discarded tr = []
          /\ AsyncQueue.items (audio_in_queue (app s)) ++ received tr
             = played tr ++ AsyncQueue.items (audio_in_queue (app s1)))
    /\ (forall s0 a s1 out,
          step s0 a = Some (s1, out) ->
          discarded out <> [] ->
          a = Receive RecvExhausted).
Proof.
  intros s rs e Hr Ht.
  pose proof (reachable_audio_in_unbounded s Hr) as Hm.
  destruct (exec_turn_events rs s Ht) as
    (s1 & tr1 & He1 & Hi1 & Hm1 & Hr1 & Hp1 & Hd1 & Hmic1 & Hscr1 & Hspk1).
  { rewrite Hm. lia. }
  assert (Ht1 : torn_down s1 = false).
  { unfold torn_down in *. now rewrite Hmic1, Hspk1. }
  split; [|split; [|split]].
  - exists s1, tr1. rewrite exec_app, He1. cbn [exec].
    rewrite (step_receive_raises s1 e Ht1). cbn [List.app].
    rewrite app_nil_r. split; [reflexivity|]. split; [exact Hd1|]. split; [exact Hi1|].
    intros Hplaying.
    destruct (exec_player_takes (AsyncQueue.qsize (audio_in_queue (app s1)))
                s1 Ht1) as (s2 & tr2 & He2 & Hp2 & _ & Hd2 & _).
    { congruence. }
    { reflexivity. }
    exists s2, tr2. rewrite <- Hi1. auto.
  - destruct (step s1 (Receive RecvExhausted)) as [[s2 out2]|] eqn:Hs.
    + exists s2, (tr1 ++ out2). rewrite exec_app, He1. cbn [exec].
      rewrite Hs, app_nil_r. split; [reflexivity|].
      apply step_audio_in in Hs as (_ & _ & Hend).
      destruct (Hend eq_refl) as (Hi2 & Hd2 & _).
      rewrite discarded_app, Hd1, Hd2, Hi1. auto.
    + unfold step in Hs. rewrite Ht1 in Hs.
      destruct (receive_loop (app s1) RecvExhausted); discriminate.
  - intros evs s2 tr Hn He.
    destruct (exec_between_boundaries evs _ _ _ Hn He). auto.
  - intros s0 a s2 out Hs Hd.
    destruct (is_turn_end a) eqn:Ha; [now apply is_turn_end_inv|].
    apply step_audio_in in Hs as (_ & Hs & _).
    destruct (Hs Ha) as [_ Hnil]. congruence.
Qed.

(** ** The capture loops while the flag is off *)

Lemma step_at_rest s e s' out :
  is_streaming (app s) = false ->
  at_rest s ->
  is_toggle e = false ->
  step s e = Some (s', out) ->
  at_rest s'
  /\ enqueued out = [] /\ captures out = 0
  /\ device_reads out = reads_served [e].
Proof.
  intros Hoff [Hmic Hscr] Hnt H.
  unfold step in H. destruct (torn_down s); [discriminate|].
  unfold at_rest.
  destruct e as [x y b p|ev|ev|r|ev|ev].
  - unfold on_mouse_click in H.
    destruct p, b; cbn in H, Hnt; try discriminate Hnt;
      injection H as <- <-; cbn; auto.
  - unfold mic_loop in H. rewrite Hoff in H.
    break_step H; cbn; rewrite ?Heqm in Hmic; cbn in Hmic; tauto.
  - unfold screen_loop in H. rewrite Hoff in H.
    break_step H; cbn; rewrite ?Heqs0 in Hscr; cbn in Hscr; tauto.
  - unfold send_loop in H. break_step H. cbn. tauto.
  - destruct ev as [r| |e].
    + unfold receive_loop in H. break_step H; cbn; tauto.
    + rewrite receive_loop_exhausted in H. injection H as <- <-.
      destruct (discards_only (AsyncQueue.items (audio_in_queue (app s))))
        as (H1 & _ & _ & _ & _ & _ & H7 & H8).
      cbn. rewrite H1, H7, H8. tauto.
    + cbn in H. injection H as <- <-. cbn. tauto.
  - unfold speaker_loop in H. break_step H; cbn; tauto.
Qed.

Lemma device_reads_app a b : device_reads (a ++ b) = device_reads a + device_reads b.
Proof. unfold device_reads. now rewrite filter_app, length_app. Qed.

Lemma captures_app a b : captures (a ++ b) = captures a + captures b.
Proof. unfold captures. now rewrite filter_app, length_app. Qed.

Lemma reads_served_cons e evs :
  reads_served (e :: evs) = reads_served [e] + reads_served evs.
Proof.
  unfold reads_served. change (e :: evs) with ([e] ++ evs).
  now rewrite filter_app, length_app.
Qed.

Lemma exec_at_rest evs :
  forall s s' tr,
    is_streaming (app s) = false ->
    at_rest s ->
    existsb is_toggle evs = false ->
    exec s evs = Some (s', tr) ->
    at_rest s' /\ is_streaming (app s') = false
    /\ enqueued tr = [] /\ captures tr = 0
    /\ device_reads tr = reads_served evs.
Proof.
  induction evs as [|e evs IH]; intros s s' tr Hoff Hrest Hnt H; cbn in H, Hnt.
  - injection H as <- <-. repeat split; auto; apply Hrest.
  - apply orb_false_iff in Hnt as [Hne Hnt].
    destruct (step s e) as [[s1 out1]|] eqn:He; [|discriminate].
    destruct (exec s1 evs) as [[s2 out2]|] eqn:Hr; [|discriminate].
    injection H as <- <-.
    destruct (step_at_rest _ _ _ _ Hoff Hrest Hne He) as (Hrest1 & He1 & Hc1 & Hd1).
    destruct (step_keeps_flags _ _ _ _ He Hne) as [Hf1 _].
    rewrite Hoff in Hf1.
    destruct (IH _ _ _ Hf1 Hrest1 Hnt Hr) as (Hrest2 & Hf2 & He2 & Hc2 & Hd2).
    rewrite enqueued_app, captures_app, device_reads_app, reads_served_cons.
    rewrite He1, He2, Hc1, Hc2, Hd1, Hd2. repeat split; auto; apply Hrest2.
Qed.

Lemma step_flag_off s e s' out :
  is_streaming (app s) = false ->
  is_toggle e = false ->
  step s e = Some (s', out) ->
  List.length (enqueued out) + in_flight s' <= in_flight s
  /\ captures out = 0
  /\ device_reads out = reads_served [e].
Proof.
  intros Hoff Hnt H. unfold in_flight.
  unfold step in H. destruct (torn_down s); [discriminate|].
  destruct e as [x y b p|ev|ev|r|ev|ev].
  - unfold on_mouse_click in H.
    destruct p, b; cbn in H, Hnt; try discriminate Hnt;
      injection H as <- <-; cbn; repeat split; lia.
  - unfold mic_loop in H. rewrite Hoff in H.
    break_step H; cbn; repeat split; lia.
  - unfold screen_loop in H. rewrite Hoff in H.
    break_step H; cbn; repeat split; lia.
  - unfold send_loop in H. break_step H. cbn. repeat split; lia.
  - destruct ev as [r| |e].
    + unfold receive_loop in H. break_step H; cbn; repeat split; lia.
    + rewrite receive_loop_exhausted in H. injection H as <- <-.
      destruct (discards_only (AsyncQueue.items (audio_in_queue (app s))))
        as (H1 & _ & _ & _ & _ & _ & H7 & H8).
      cbn. rewrite H1, H7, H8. cbn. repeat split; lia.
    + cbn in H. injection H as <- <-. cbn. repeat split; lia.
  - unfold speaker_loop in H. break_step H; cbn; repeat split; lia.
Qed.

Lemma exec_flag_off evs :
  forall s s' tr,
    is_streaming (app s) = false ->
    existsb is_toggle evs = false ->
    exec s evs = Some (s', tr) ->
    List.length (enqueued tr) + in_flight s' <= in_flight s
    /\ captures tr = 0
    /\ device_reads tr = reads_served evs
    /\ is_streaming (app s') = false.
Proof.
  induction evs as [|e evs IH]; intros s s' tr Hoff Hnt H; cbn in H, Hnt.
  - injection H as <- <-. cbn. repeat split; auto.
  - apply orb_false_iff in Hnt as [Hne Hnt].
    destruct (step s e) as [[s1 out1]|] eqn:He; [|discriminate].
    destruct (exec s1 evs) as [[s2 out2]|] eqn:Hr; [|discriminate].
    injection H as <- <-.
    destruct (step_flag_off _ _ _ _ Hoff Hne He) as (Hl1 & Hc1 & Hd1).
    destruct (step_keeps_flags _ _ _ _ He Hne) as [Hf1 _].
    rewrite Hoff in Hf1.
    destruct (IH _ _ _ Hf1 Hnt Hr) as (Hl2 & Hc2 & Hd2 & Hf2).
    rewrite enqueued_app, length_app, captures_app, device_reads_app,
      reads_served_cons.
    repeat split; auto; lia.
Qed.

Lemma in_flight_bound s : in_flight s <= 2.
Proof. unfold in_flight. destruct (mic s), (screen s); cbn; lia. Qed.

(** C3, as stated, fails: the flag is tested once per iteration, before the
    chunk is put, and a chunk that has passed the test is enqueued even
    though the flag has been switched off since.  So it is with the audio
    chunk of a read that returned before the press, and with the frame of a
    capture that was running during the press. *)
Lemma stale_chunk_is_enqueued_while_paused :
  reachable (fst (run_of stale_mic_schedule))
  /\ is_streaming (app (fst (run_of stale_mic_schedule))) = false
  /\ enqueued (snd (step_of (fst (run_of stale_mic_schedule)) (Mic MicPutDone)))
     = [{| data := Raw [Byte.x01]; mime_type := "audio/pcm" |}]
  /\ reachable (fst (run_of stale_screen_schedule))
  /\ is_streaming (app (fst (run_of stale_screen_schedule))) = false
  /\ enqueued (snd (step_of (fst (run_of stale_screen_schedule))
                      (Screen ScreenPutDone)))
     = [{| data := Base64 "/9j/4AAQSkZJRg=="; mime_type := "image/jpeg" |}]
  /\ ~ (forall s e s' out,
          reachable s ->
          is_streaming (app s) = false ->
          step s e = Some (s', out) ->
          enqueued out = []).
Proof.
  assert (Hr : reachable (fst (run_of stale_mic_schedule))).
  { exists "loading.gif", 100%Z, stale_mic_schedule,
      (snd (run_of stale_mic_schedule)). vm_compute. reflexivity. }
  split; [exact Hr|]. split; [reflexivity|]. split; [reflexivity|].
  split.
  { exists "loading.gif", 100%Z, stale_screen_schedule,
      (snd (run_of stale_screen_schedule)). vm_compute. reflexivity. }
  split; [reflexivity|]. split; [reflexivity|].
  intros Hclaim.
  assert (Hstep : step (fst (run_of stale_mic_schedule)) (Mic MicPutDone)
                  = Some (step_of (fst (run_of stale_mic_schedule))
                            (Mic MicPutDone)))
    by (vm_compute; reflexivity).
  destruct (step_of (fst (run_of stale_mic_schedule)) (Mic MicPutDone))
    as [s' out] eqn:Hso.
  pose proof (Hclaim _ _ _ _ Hr eq_refl Hstep) as Hnone.
  assert (Hout : enqueued out
                 = [{| data := Raw [Byte.x01]; mime_type := "audio/pcm" |}]).
  { change out with (snd (s', out)). rewrite <- Hso. reflexivity. }
  rewrite Hnone in Hout. discriminate Hout.
Qed.

(** C3, amended: when the streaming flag is off as a loop tests it, that
    iteration puts nothing on the outbound queue: the microphone loop
    performs its device read and goes straight back to reading, the screen
    loop sleeps 0.2 s and comes back to its test, without a capture.  While
    the flag stays off, the only chunks enqueued are those already past
    their test when it went off, at most one per loop: along any schedule
    that starts with the flag off and serves no press of the side button,
    no more chunks are enqueued than were on their way, no screen is
    captured, and every microphone read is still performed; with no chunk
    on its way nothing is enqueued at all. *)
Theorem idle_when_not_streaming :
  forall s,
    is_streaming (app s) = false ->
    torn_down s = false ->
    (forall r d,
       mic s = MicReading ->
       stream_read exception_on_overflow r = inr d ->
       step s (Mic (MicReadDone r))
       = Some (s, [StreamRead CHUNK_SIZE false]))
    /\ (screen s = ScreenGuard ->
        let asleep := {| app := app s; mic := mic s;
                         screen := ScreenSleeping 0.2;
                         speaker := speaker s |} in
        step s (Screen ScreenCheck) = Some (asleep, [Sleep 0.2])
        /\ step asleep (Screen ScreenWake) = Some (s, []))
    /\ (at_rest s ->
        forall evs s' tr,
          existsb is_toggle evs = false ->
          exec s evs = Some (s', tr) ->
          enqueued tr = [] /\ captures tr = 0
          /\ device_reads tr = reads_served evs
          /\ is_streaming (app s') = false /\ at_rest s')
    /\ (forall evs s' tr,
          existsb is_toggle evs = false ->
          exec s evs = Some (s', tr) ->
          List.length (enqueued tr) + in_flight s' <= in_flight s
          /\ in_flight s <= 2
          /\ captures tr = 0
          /\ device_reads tr = reads_served evs
          /\ is_streaming (app s') = false).
Proof.
  intros s Hoff Ht. split; [|split; [|split]].
  - intros r d Hmic Hread. unfold step. rewrite Ht. unfold mic_loop.
    rewrite Hmic, Hread, Hoff. destruct s; cbn in *. now subst.
  - intros Hscr asleep. subst asleep. unfold step.
    rewrite Ht. unfold torn_down in *. cbn [mic speaker]. rewrite Ht.
    unfold screen_loop. rewrite Hscr, Hoff. cbn.
    destruct s; cbn in *. now subst.
  - intros Hrest evs s' tr Hnt H.
    destruct (exec_at_rest evs _ _ _ Hoff Hrest Hnt H)
      as (Hr' & Hf' & He & Hc & Hd).
    repeat split; auto; apply Hr'.
  - intros evs s' tr Hnt H.
    destruct (exec_flag_off evs _ _ _ Hoff Hnt H) as (Hl & Hc & Hd & Hf).
    repeat split; auto. apply in_flight_bound.
Qed.

(** ** Failures of the microphone read *)

Lemma torn_down_stops s e :
  torn_down s = true -> step s e = None.
Proof. intros H. unfold step. now rewrite H. Qed.

(** C7, as stated, fails: a device read that raises anything but an input
    overflow is not caught by the microphone loop; the loop ends and with
    it the task group, after which no read is served any more. *)
Lemma mic_read_failure_is_fatal :
  ~ read_survived
      (GeminiLiveAssistant.__init__ (OverlayThread.__init__ "loading.gif" 100))
      (ReadFailed "Unanticipated host error")
  /\ exists s tr,
       exec (boot "loading.gif" 100)
         [Mic (MicOpened None);
          Mic (MicReadDone (ReadFailed "Unanticipated host error"))]
       = Some (s, tr)
       /\ mic s = MicRaised "Unanticipated host error"
       /\ torn_down s = true
       /\ step s (Mic (MicReadDone (ReadData [Byte.x01]))) = None.
Proof.
  split.
  - intros (self' & pc & out & H & Hpc). cbn in H.
    injection H as _ <- _. now apply (Hpc "Unanticipated host error").
  - do 2 eexists. split; [vm_compute; reflexivity|]. repeat split.
Qed.

(** C7, amended: every microphone read is issued with
    [exception_on_overflow=False], so a read that meets an input overflow
    returns its data like a clean read and the loop goes on (with the flag
    set it would have raised); the loop has no handler of its own, and a
    read that raises for any other reason ends it, and the task group with
    it. *)
Theorem mic_read_overflow_tolerant :
  forall self,
    exception_on_overflow = false
    /\ (forall r, exists pc,
          mic_loop self MicReading (MicReadDone r)
          = Some (self, pc, [StreamRead CHUNK_SIZE false]))
    /\ (forall d,
          read_survived self (ReadData d)
          /\ read_survived self (ReadOverflowed d)
          /\ mic_loop self MicReading (MicReadDone (ReadOverflowed d))
             = mic_loop self MicReading (MicReadDone (ReadData d))
          /\ stream_read true (ReadOverflowed d) = inl "Input overflowed")
    /\ (forall e,
          mic_loop self MicReading (MicReadDone (ReadFailed e))
          = Some (self, MicRaised e, [StreamRead CHUNK_SIZE false])
          /\ ~ read_survived self (ReadFailed e))
    /\ (forall s e ev, mic s = MicRaised e -> step s ev = None).
Proof.
  intros self. split; [reflexivity|]. split; [|split; [|split]].
  - intros [d|d|e]; cbn; destruct (is_streaming self); eexists; reflexivity.
  - intros d. repeat split.
    + unfold read_survived. cbn. destruct (is_streaming self);
        do 3 eexists; (split; [reflexivity | discriminate]).
    + unfold read_survived. cbn. destruct (is_streaming self);
        do 3 eexists; (split; [reflexivity | discriminate]).
  - intros e. split; [reflexivity|].
    intros (self' & pc & out & H & Hpc). cbn in H.
    injection H as _ <- _. now apply (Hpc e).
  - intros s e ev Hmic. apply torn_down_stops.
    unfold torn_down. now rewrite Hmic.
Qed.

(** ** The properties on the sample schedules *)

Lemma run_of_exec evs :
  exec (boot "loading.gif" 100) evs <> None ->
  exec (boot "loading.gif" 100) evs = Some (fst (run_of evs), snd (run_of evs)).
Proof.
  unfold run_of. destruct (exec (boot "loading.gif" 100) evs) as [[s tr]|].
  - reflexivity.
  - intros H; now destruct H.
Defined.

Lemma run_of_reachable evs :
  exec (boot "loading.gif" 100) evs <> None -> reachable (fst (run_of evs)).
Proof.
  intros H. exists "loading.gif", 100%Z, evs, (snd (run_of evs)).
  now apply run_of_exec.
Defined.

Lemma send_loop_fifo_witness :
  enqueued (snd (run_of fifo_schedule))
  = sent (snd (run_of fifo_schedule))
      ++ AsyncQueue.items (out_queue (app (fst (run_of fifo_schedule))))
  /\ List.length (enqueued (snd (run_of fifo_schedule))) = 3
  /\ List.length (sent (snd (run_of fifo_schedule))) = 2.
Proof.
  split; [|split; reflexivity].
  apply (send_loop_fifo "loading.gif" 100 fifo_schedule
           (fst (run_of fifo_schedule)) (snd (run_of fifo_schedule))).
  vm_compute. reflexivity.
Defined.

Lemma turn_end_flushes_inbound_queue_witness :
  let preloaded := fst (run_of preload_schedule) in
  let flushed := fst (step_of preloaded (Receive RecvExhausted)) in
  AsyncQueue.qsize (audio_in_queue (app preloaded)) = 2
  /\ AsyncQueue.qsize (audio_in_queue (app flushed)) = 0
  /\ exists s1 tr,
       exec flushed (turn_events next_turn ++ player_takes 2) = Some (s1, tr)
       /\ played tr = [[Byte.x04]; [Byte.x05; Byte.x06]].
Proof.
  intros preloaded flushed.
  assert (Hstep : step preloaded (Receive RecvExhausted)
                  = Some (flushed, snd (step_of preloaded (Receive RecvExhausted))))
    by (vm_compute; reflexivity).
  destruct (turn_end_flushes_inbound_queue preloaded flushed _ Hstep)
    as (H0 & _ & _ & _ & Hlater).
  split; [reflexivity|]. split; [exact H0|].
  destruct (Hlater (run_of_reachable preload_schedule
                      ltac:(vm_compute; discriminate))
                   eq_refl next_turn)
    as (s1 & tr & He & _ & Hp & _).
  exists s1, tr. split; [exact He | exact Hp].
Defined.

Lemma idle_when_not_streaming_witness :
  let paused := fst (run_of paused_schedule) in
  let stale := fst (run_of stale_mic_schedule) in
  step paused (Mic (MicReadDone (ReadOverflowed [Byte.x01])))
  = Some (paused, [StreamRead CHUNK_SIZE false])
  /\ enqueued (snd (step_of paused (Screen ScreenCheck))) = []
  /\ (exists s' tr,
        exec paused idle_schedule = Some (s', tr)
        /\ enqueued tr = [] /\ captures tr = 0 /\ device_reads tr = 2)
  /\ (exists s' tr,
        exec stale (Mic MicPutDone :: idle_schedule) = Some (s', tr)
        /\ List.length (enqueued tr) + in_flight s' <= 1
        /\ captures tr = 0).
Proof.
  intros paused stale.
  destruct (idle_when_not_streaming paused eq_refl eq_refl)
    as (Hmic & Hscreen & Hrun & _).
  destruct (idle_when_not_streaming stale eq_refl eq_refl)
    as (_ & _ & _ & Hflight).
  split; [|split; [|split]].
  - apply (Hmic (ReadOverflowed [Byte.x01]) [Byte.x01]); reflexivity.
  - reflexivity.
  - exists (fst (run_from paused idle_schedule)),
           (snd (run_from paused idle_schedule)).
    assert (He : exec paused idle_schedule
                 = Some (fst (run_from paused idle_schedule),
                         snd (run_from paused idle_schedule)))
      by (vm_compute; reflexivity).
    split; [exact He|].
    destruct (Hrun (conj I I) idle_schedule _ _ eq_refl He)
      as (H1 & H2 & H3 & _).
    split; [exact H1 | split; [exact H2 | exact H3]].
  - exists (fst (run_from stale (Mic MicPutDone :: idle_schedule))),
           (snd (run_from stale (Mic MicPutDone :: idle_schedule))).
    assert (He : exec stale (Mic MicPutDone :: idle_schedule)
                 = Some (fst (run_from stale (Mic MicPutDone :: idle_schedule)),
                         snd (run_from stale (Mic MicPutDone :: idle_schedule))))
      by (vm_compute; reflexivity).
    split; [exact He|].
    destruct (Hflight (Mic MicPutDone :: idle_schedule) _ _ eq_refl He)
      as (H1 & _ & H2 & _).
    split; [exact H1 | exact H2].
Defined.

Lemma out_queue_backpressure_witness :
  let full := fst (run_of full_schedule) in
  AsyncQueue.qsize (out_queue (app full)) = 5
  /\ step full (Mic MicPutDone) = None
  /\ exists s2,
       step (fst (step_of full (Send None))) (Mic MicPutDone)
       = Some (s2, [OutPut {| data := Raw [Byte.x02]; mime_type := "audio/pcm" |}])
       /\ AsyncQueue.qsize (out_queue (app s2)) = 5.
Proof.
  intros full.
  destruct (out_queue_backpressure full
              (run_of_reachable full_schedule ltac:(vm_compute; discriminate)))
    as (_ & _ & Hfull).
  destruct (Hfull eq_refl) as (Hblocked & _ & Hafter).
  split; [reflexivity|]. split.
  - apply Hblocked. reflexivity.
  - assert (Hs : step full (Send None)
                 = Some (fst (step_of full (Send None)),
                         snd (step_of full (Send None))))
      by (vm_compute; reflexivity).
    destruct (Hafter None _ _ Hs) as (_ & Hmic & _).
    apply Hmic. reflexivity.
Defined.

Lemma failed_turn_skips_flush_witness :
  let preloaded := fst (run_of preload_schedule) in
  exists s1 tr,
    exec preloaded (turn_events next_turn ++ [Receive (RecvRaises "timed out")])
    = Some (s1, tr)
    /\ discarded tr = []
    /\ AsyncQueue.items (audio_in_queue (app s1))
       = AsyncQueue.items (audio_in_queue (app preloaded)) ++ audio_of next_turn.
Proof.
  intros preloaded.
  destruct (failed_turn_skips_flush preloaded next_turn "timed out"
              (run_of_reachable preload_schedule ltac:(vm_compute; discriminate))
              eq_refl)
    as ((s1 & tr & He & Hd & Hi & _) & _).
  exists s1, tr. repeat split; assumption.
Defined.

Lemma starts_streaming_and_visible_witness :
  is_streaming (app (fst (run_of untoggled_schedule))) = true
  /\ OverlayThread.should_be_visible
       (overlay (app (fst (run_of untoggled_schedule)))) = true.
Proof.
  destruct (starts_streaming_and_visible "loading.gif" 100)
    as (_ & _ & _ & Hstay).
  apply (Hstay untoggled_schedule _ (snd (run_of untoggled_schedule))).
  - reflexivity.
  - vm_compute. reflexivity.
Defined.

Lemma mic_read_overflow_tolerant_witness :
  let broken := fst (run_of broken_mic_schedule) in
  step broken (Mic (MicReadDone (ReadData [Byte.x01]))) = None.
Proof.
  intros broken.
  destruct (mic_read_overflow_tolerant (app broken)) as (_ & _ & _ & _ & Hdead).
  apply (Hdead broken "Unanticipated host error"). reflexivity.
Defined.

(** * Further properties *)

(** ** Loading and running the animation *)

Lemma process_frames_ok sz src :
  forall acc ids,
    frame_ids src = Some ids ->
    OverlayThread.process_frames sz src acc
    = inr (acc ++ map (fun id => {| frame_id := id; size := sz |}) ids).
Proof.
  induction src as [|f src IH]; intros acc ids H; cbn in H.
  - injection H as <-. cbn. now rewrite app_nil_r.
  - destruct f as [id|e]; [|discriminate].
    destruct (frame_ids src) as [ids'|]; [|discriminate].
    injection H as <-. cbn. rewrite (IH _ ids' eq_refl).
    now rewrite <- app_assoc.
Qed.

Lemma frame_ids_None src :
  frame_ids src = None <-> exists e, In (FrameRaises e) src.
Proof.
  induction src as [|f src IH]; cbn.
  - split; [discriminate | intros [e []]].
  - destruct f as [id|e].
    + destruct (frame_ids src) as [ids|]; cbn.
      * split; [discriminate|]. intros [e [He|He]]; [discriminate|].
        assert (Hn : Some ids = None) by (apply IH; now exists e).
        discriminate Hn.
      * split; [|reflexivity]. intros _.
        destruct (proj1 IH eq_refl) as [e He]. exists e. now right.
    + split; [|reflexivity]. intros _. exists e. now left.
Qed.

(** X1: [load_gif] is all or nothing.  When every frame of the file can be
    processed it returns one image per frame, in file order, and prints
    nothing; when one frame raises it returns no frame at all, the ones
    processed before it included.  Every image it returns has the side
    [icon_size]. *)
Theorem load_gif_all_or_nothing :
  forall self src,
    fst (OverlayThread.load_gif self (GifOpened src))
    = match frame_ids src with
      | Some ids =>
          map (fun id => {| frame_id := id;
                            size := OverlayThread.icon_size self |}) ids
      | None => []
      end
    /\ (frame_ids src = None <-> exists e, In (FrameRaises e) src)
    /\ (frame_ids src <> None ->
        snd (OverlayThread.load_gif self (GifOpened src)) = []
        /\ List.length (fst (OverlayThread.load_gif self (GifOpened src)))
           = List.length src)
    /\ (forall file f,
          In f (fst (OverlayThread.load_gif self file)) ->
          size f = OverlayThread.icon_size self).
Proof.
  intros self src.
  assert (Hload : forall ids, frame_ids src = Some ids ->
            OverlayThread.load_gif self (GifOpened src)
            = (map (fun id => {| frame_id := id;
                                 size := OverlayThread.icon_size self |}) ids,
               [])).
  { intros ids H. unfold OverlayThread.load_gif.
    now rewrite (process_frames_ok _ _ [] ids H). }
  assert (Hlen : forall l ids, frame_ids l = Some ids ->
                               List.length ids = List.length l).
  { induction l as [|f l IH]; intros ids H; cbn in H.
    - now injection H as <-.
    - destruct f; [|discriminate].
      destruct (frame_ids l) as [ids'|]; [|discriminate].
      injection H as <-. cbn. now rewrite (IH ids' eq_refl). }
  assert (Hsize : forall src0 f,
            In f (fst (OverlayThread.load_gif self (GifOpened src0))) ->
            size f = OverlayThread.icon_size self).
  { intros src0 f Hin. unfold OverlayThread.load_gif in Hin.
    destruct (frame_ids src0) as [ids|] eqn:Hi.
    - rewrite (process_frames_ok _ _ [] ids Hi) in Hin. cbn in Hin.
      apply in_map_iff in Hin as (id & <- & _). reflexivity.
    - apply frame_ids_None in Hi.
      destruct (process_frames_raises (OverlayThread.icon_size self) src0 Hi [])
        as [e He].
      rewrite He in Hin. destruct Hin. }
  split; [|split; [apply frame_ids_None|split]].
  - destruct (frame_ids src) as [ids|] eqn:Hi.
    + now rewrite (Hload ids).
    + apply frame_ids_None in Hi.
      destruct (load_gif_unavailable self (GifOpened src) (or_intror Hi))
        as [msg ->]. reflexivity.
  - intros Hok. destruct (frame_ids src) as [ids|] eqn:Hi; [|now destruct Hok].
    rewrite (Hload ids eq_refl). cbn. rewrite length_map. split; auto.
  - intros [|e|src0] f Hin; try (now destruct Hin). now apply (Hsize src0).
Qed.

Lemma load_gif_all_or_nothing_witness :
  List.length (fst (OverlayThread.load_gif
                      (OverlayThread.__init__ "loading.gif" 100) three_frames))
  = 3.
Proof.
  apply (load_gif_all_or_nothing
           (OverlayThread.__init__ "loading.gif" 100)
           [FrameOk 0; FrameOk 1; FrameOk 2]).
  discriminate.
Defined.

Lemma update_animation_fields self :
  let next := fst (OverlayThread.update_animation self) in
  let out := snd (OverlayThread.update_animation self) in
  OverlayThread.frames next = OverlayThread.frames self
  /\ OverlayThread.should_be_visible next = OverlayThread.should_be_visible self
  /\ OverlayThread.is_window_hidden next
     = negb (OverlayThread.should_be_visible self)
  /\ OverlayThread.current_frame_idx next
     = (if OverlayThread.should_be_visible self
        then match OverlayThread.frames self with
             | [] => OverlayThread.current_frame_idx self
             | _ :: _ => S (OverlayThread.current_frame_idx self)
                           mod List.length (OverlayThread.frames self)
             end
        else OverlayThread.current_frame_idx self)
  /\ drawn out
     = (if OverlayThread.should_be_visible self
        then match OverlayThread.frames self with
             | [] => []
             | f0 :: _ => [nth (OverlayThread.current_frame_idx self)
                             (OverlayThread.frames self) f0]
             end
        else [])
  /\ (In TkWithdraw out <->
      OverlayThread.should_be_visible self = false
      /\ OverlayThread.is_window_hidden self = false)
  /\ (In TkDeiconify out <->
      OverlayThread.should_be_visible self = true
      /\ OverlayThread.is_window_hidden self = true).
Proof.
  destruct self as [gp isz dm lb fr idx tc vis hid].
  unfold OverlayThread.update_animation.
  destruct vis, hid, fr as [|f0 fr]; cbn;
    repeat split; try tauto; try discriminate;
    try (intros [[=]|H]; try discriminate; try tauto);
    try (intros [H|H]; try discriminate; try tauto);
    intuition discriminate.
Qed.

Lemma set_visibility_fields self v :
  OverlayThread.frames (OverlayThread.set_visibility self v)
  = OverlayThread.frames self
  /\ OverlayThread.current_frame_idx (OverlayThread.set_visibility self v)
     = OverlayThread.current_frame_idx self
  /\ OverlayThread.should_be_visible (OverlayThread.set_visibility self v) = v
  /\ OverlayThread.is_window_hidden (OverlayThread.set_visibility self v)
     = OverlayThread.is_window_hidden self.
Proof. repeat split. Qed.

Lemma drawn_app a b : drawn (a ++ b) = drawn a ++ drawn b.
Proof. apply flat_map_app. Qed.

Lemma animate_cons self v vs :
  animate self (v :: vs)
  = (fst (animate (fst (OverlayThread.update_animation
                          (OverlayThread.set_visibility self v))) vs),
     snd (OverlayThread.update_animation (OverlayThread.set_visibility self v))
       ++ snd (animate (fst (OverlayThread.update_animation
                               (OverlayThread.set_visibility self v))) vs)).
Proof.
  cbn [animate].
  destruct (OverlayThread.update_animation (OverlayThread.set_visibility self v))
    as [self1 out1].
  cbn [fst snd]. now destruct (animate self1 vs).
Qed.

Lemma update_animation_step self :
  OverlayThread.frames self <> [] ->
  OverlayThread.current_frame_idx self
  < List.length (OverlayThread.frames self) ->
  let next := fst (OverlayThread.update_animation self) in
  let out := snd (OverlayThread.update_animation self) in
  OverlayThread.frames next = OverlayThread.frames self
  /\ OverlayThread.current_frame_idx next
     = (if OverlayThread.should_be_visible self
        then S (OverlayThread.current_frame_idx self)
               mod List.length (OverlayThread.frames self)
        else OverlayThread.current_frame_idx self)
  /\ drawn out
     = (if OverlayThread.should_be_visible self
        then match nth_error (OverlayThread.frames self)
                     (OverlayThread.current_frame_idx self) with
             | Some f => [f]
             | None => []
             end
        else []).
Proof.
  intros Hne Hidx next out.
  destruct (update_animation_fields self) as (Hfr & _ & _ & Hi & Hdr & _).
  fold next in Hfr, Hi. fold out in Hdr.
  destruct (OverlayThread.frames self) as [|f0 fr] eqn:Hfs; [now destruct Hne|].
  split; [exact Hfr|]. split; [exact Hi|]. rewrite Hdr.
  destruct (OverlayThread.should_be_visible self); [|reflexivity].
  now rewrite (nth_error_nth' _ f0 Hidx).
Qed.

(** X2: the animation runs through the frames in order and starts again
    after the last one, and it stands still while the overlay is hidden.
    With [n > 0] frames loaded and the index below [n], after any sequence
    of timer firings the index is the old one plus the number of firings
    that found the overlay visible, modulo [n]; exactly those firings put a
    frame on the label, the [j]-th of them the frame numbered old index
    plus [j] modulo [n].  The index never leaves the frame list. *)
Theorem animation_cycles_through_frames :
  forall vs self,
    OverlayThread.frames self <> [] ->
    OverlayThread.current_frame_idx self
    < List.length (OverlayThread.frames self) ->
    let n := List.length (OverlayThread.frames self) in
    let idx := OverlayThread.current_frame_idx self in
    OverlayThread.frames (fst (animate self vs)) = OverlayThread.frames self
    /\ OverlayThread.current_frame_idx (fst (animate self vs))
       = (idx + visible_firings vs) mod n
    /\ OverlayThread.current_frame_idx (fst (animate self vs)) < n
    /\ List.length (drawn (snd (animate self vs))) = visible_firings vs
    /\ (forall j, j < visible_firings vs ->
          nth_error (drawn (snd (animate self vs))) j
          = nth_error (OverlayThread.frames self) ((idx + j) mod n)).
Proof.
  induction vs as [|v vs IH]; intros self Hne Hidx n idx.
  - cbn. subst n idx. rewrite Nat.add_0_r, Nat.mod_small by exact Hidx.
    repeat split; auto. intros j Hj. inversion Hj.
  - rewrite animate_cons.
    set (self0 := OverlayThread.set_visibility self v).
    destruct (set_visibility_fields self v) as (Hf0 & Hi0 & Hv0 & _).
    fold self0 in Hf0, Hi0, Hv0.
    destruct (update_animation_step self0) as (Hfr & Hi & Hdr).
    { now rewrite Hf0. }
    { now rewrite Hf0, Hi0. }
    rewrite Hv0, Hf0, Hi0 in Hi, Hdr. rewrite Hf0 in Hfr.
    set (self1 := fst (OverlayThread.update_animation self0)) in *.
    fold n idx in Hi, Hdr.
    assert (Hn0 : n <> 0).
    { subst n. destruct (OverlayThread.frames self);
        [now destruct Hne|discriminate]. }
    assert (Hidx1 : OverlayThread.current_frame_idx self1
                    < List.length (OverlayThread.frames self1)).
    { rewrite Hfr, Hi. destruct v; [|exact Hidx].
      apply Nat.mod_upper_bound. exact Hn0. }
    assert (Hne1 : OverlayThread.frames self1 <> []) by now rewrite Hfr.
    destruct (IH self1 Hne1 Hidx1) as (IH1 & IH2 & IH3 & IH4 & IH5).
    rewrite Hfr in IH1, IH2, IH3, IH5. fold n in IH2, IH3, IH5.
    rewrite Hi in IH2, IH5.
    cbn [fst snd]. rewrite drawn_app, length_app, IH4, Hdr.
    split; [exact IH1|].
    assert (Hstep : forall k, (S idx mod n + k) mod n = (idx + S k) mod n).
    { intros k. rewrite Nat.Div0.add_mod_idemp_l. f_equal. lia. }
    destruct v; cbn [visible_firings filter List.length];
      fold (visible_firings vs).
    + destruct (nth_error (OverlayThread.frames self) idx) as [f|] eqn:Hf.
      2:{ apply nth_error_None in Hf. fold n in Hf. unfold idx in Hf. lia. }
      repeat split.
      * rewrite IH2. apply Hstep.
      * exact IH3.
      * intros [|j] Hj.
        -- cbn. now rewrite Nat.add_0_r, Nat.mod_small by exact Hidx.
        -- cbn [List.app nth_error]. rewrite IH5 by lia. f_equal. apply Hstep.
    + cbn [List.app]. repeat split; auto.
Qed.

Lemma update_animation_reschedules self :
  In (TkAfter 50) (snd (OverlayThread.update_animation self))
  /\ ~ In TkMainloop (snd (OverlayThread.update_animation self)).
Proof.
  destruct self as [gp isz dm lb fr idx tc vis hid].
  unfold OverlayThread.update_animation.
  destruct vis, hid, fr as [|f0 fr]; cbn; intuition discriminate.
Qed.

Lemma update_animation_keeps_label self :
  OverlayThread.has_label (fst (OverlayThread.update_animation self))
  = OverlayThread.has_label self.
Proof.
  destruct self as [gp isz dm lb fr idx tc vis hid].
  unfold OverlayThread.update_animation.
  destruct vis, hid, fr as [|f0 fr]; reflexivity.
Qed.

Lemma run_without_frames self file w h :
  fst (OverlayThread.load_gif self file) = [] ->
  OverlayThread.frames (fst (OverlayThread.run self file w h)) = []
  /\ ~ In TkMainloop (snd (OverlayThread.run self file w h))
  /\ ~ In (TkAfter 50) (snd (OverlayThread.run self file w h))
  /\ drawn (snd (OverlayThread.run self file w h)) = [].
Proof.
  unfold OverlayThread.run, OverlayThread.load_gif.
  destruct file as [|e|src]; cbn.
  - intros _. intuition discriminate.
  - intros _. intuition discriminate.
  - destruct (OverlayThread.process_frames (OverlayThread.icon_size self) src [])
      as [e|fs]; cbn.
    + intros _. intuition discriminate.
    + intros ->. cbn. intuition discriminate.
Qed.

Lemma run_with_frames self file w h f0 fs :
  fst (OverlayThread.load_gif self file) = f0 :: fs ->
  let started := OverlayThread.with_frames self (f0 :: fs) true in
  OverlayThread.run self file w h
  = (fst (OverlayThread.update_animation started),
     [TkSetup; TkPackLabel;
      TkGeometry (w - OverlayThread.icon_size self - MARGIN)
                 (h - OverlayThread.icon_size self - MARGIN)]
       ++ snd (OverlayThread.update_animation started) ++ [TkMainloop]).
Proof.
  intros Hload started.
  assert (Hprinted : OverlayThread.load_gif self file = (f0 :: fs, [])).
  { unfold OverlayThread.load_gif in *. destruct file as [|e|src];
      try discriminate Hload.
    destruct (OverlayThread.process_frames (OverlayThread.icon_size self) src [])
      as [e|l]; [discriminate Hload|]. cbn in Hload. now rewrite Hload. }
  unfold OverlayThread.run. rewrite Hprinted. fold started.
  now destruct (OverlayThread.update_animation started).
Qed.

(** X3: the overlay thread enters the Tk main loop, and starts the 50 ms
    timer, exactly when [load_gif] returned at least one frame (a file that
    opens but holds no frame starts nothing either).  When it does, the
    window is placed [MARGIN] pixels inside the bottom right corner of the
    screen, the first frame is put on the label if the overlay is to be
    visible, and the frame index stays inside the frame list. *)
Theorem overlay_starts_iff_frames_loaded :
  forall self file screen_width screen_height,
    OverlayThread.current_frame_idx self = 0 ->
    let loaded := fst (OverlayThread.load_gif self file) in
    let after := fst (OverlayThread.run self file screen_width screen_height) in
    let out := snd (OverlayThread.run self file screen_width screen_height) in
    (In TkMainloop out <-> loaded <> [])
    /\ (In (TkAfter 50) out <-> loaded <> [])
    /\ OverlayThread.frames after = loaded
    /\ drawn out = (if OverlayThread.should_be_visible self
                    then firstn 1 loaded else [])
    /\ (loaded <> [] ->
        OverlayThread.has_label after = true
        /\ OverlayThread.current_frame_idx after < List.length loaded
        /\ exists x_pos y_pos,
             In (TkGeometry x_pos y_pos) out
             /\ (x_pos + OverlayThread.icon_size self + MARGIN = screen_width)%Z
             /\ (y_pos + OverlayThread.icon_size self + MARGIN = screen_height)%Z).
Proof.
  intros self file w h Hidx loaded after out.
  destruct loaded as [|f0 fs] eqn:Hl; subst loaded.
  - destruct (run_without_frames self file w h Hl) as (Hf & Hm & Ha & Hd).
    subst after out. rewrite Hf, Hd.
    repeat split; try tauto; try (intros H; now destruct H).
    now destruct (OverlayThread.should_be_visible self).
  - pose proof (run_with_frames self file w h f0 fs Hl) as Hrun.
    cbv zeta in Hrun.
    set (started := OverlayThread.with_frames self (f0 :: fs) true) in *.
    destruct (update_animation_fields started)
      as (Hfr & _ & _ & Hi & Hdr & _).
    destruct (update_animation_reschedules started) as [Hafter _].
    subst after out. rewrite Hrun. cbn [fst snd].
    assert (Hdrawn : forall a b, drawn ([TkSetup; TkPackLabel; TkGeometry a b]
                       ++ snd (OverlayThread.update_animation started)
                       ++ [TkMainloop])
                     = drawn (snd (OverlayThread.update_animation started))).
    { intros a b. rewrite !drawn_app. cbn. apply app_nil_r. }
    rewrite Hdrawn, Hdr, Hfr. cbn [OverlayThread.with_frames started
      OverlayThread.frames OverlayThread.should_be_visible
      OverlayThread.current_frame_idx]. rewrite Hidx.
    split; [|split; [|split; [|split]]].
    + split; [discriminate|]. intros _.
      apply in_or_app. right. apply in_or_app. right. now left.
    + split; [discriminate|]. intros _.
      apply in_or_app. right. apply in_or_app. now left.
    + reflexivity.
    + now destruct (OverlayThread.should_be_visible self).
    + intros _. split; [|split].
      * now rewrite update_animation_keeps_label.
      * rewrite Hi. cbn [OverlayThread.with_frames started
          OverlayThread.frames OverlayThread.should_be_visible
          OverlayThread.current_frame_idx]. rewrite Hidx.
        destruct (OverlayThread.should_be_visible self); [|cbn; lia].
        apply Nat.mod_upper_bound. discriminate.
      * exists (w - OverlayThread.icon_size self - MARGIN)%Z,
               (h - OverlayThread.icon_size self - MARGIN)%Z.
        split; [|lia]. cbn. auto.
Qed.

(** X4: on an overlay that [run] has started (its window and label exist),
    one firing of the timer brings the window in line with the visibility
    flag: afterwards the window is hidden exactly when the flag is off, and
    the overlay is still a started one.  The window is withdrawn or shown
    again only on a change: a firing withdraws it only if it was shown and
    the flag is off, shows it only if it was hidden and the flag is on, and
    the firing after that does neither.  So after a press of the side
    button and the next firing the window of a started overlay is hidden
    exactly when the assistant was streaming before the press. *)
Theorem window_follows_flag :
  forall self,
    OverlayThread.has_label self = true ->
    let first := OverlayThread.update_animation self in
    let second := OverlayThread.update_animation (fst first) in
    OverlayThread.is_window_hidden (fst first)
    = negb (OverlayThread.should_be_visible self)
    /\ OverlayThread.has_label (fst first) = true
    /\ (In TkWithdraw (snd first) <->
        OverlayThread.should_be_visible self = false
        /\ OverlayThread.is_window_hidden self = false)
    /\ (In TkDeiconify (snd first) <->
        OverlayThread.should_be_visible self = true
        /\ OverlayThread.is_window_hidden self = true)
    /\ ~ In TkWithdraw (snd second)
    /\ ~ In TkDeiconify (snd second)
    /\ (forall (a : GeminiLiveAssistant.t) x y,
          overlay a = self ->
          OverlayThread.has_label
            (overlay (fst (on_mouse_click a x y Button.x1 true))) = true
          /\ OverlayThread.is_window_hidden
               (fst (OverlayThread.update_animation
                       (overlay (fst (on_mouse_click a x y Button.x1 true)))))
             = is_streaming a).
Proof.
  intros self Hstarted first second.
  destruct (update_animation_fields self) as (_ & Hv & Hh & _ & _ & Hw & Hd).
  fold first in Hv, Hh, Hw, Hd.
  destruct (update_animation_fields (fst first))
    as (_ & _ & _ & _ & _ & Hw2 & Hd2).
  fold second in Hw2, Hd2. rewrite Hv, Hh in Hw2, Hd2.
  split; [exact Hh|].
  split; [subst first; now rewrite update_animation_keeps_label|].
  split; [exact Hw|]. split; [exact Hd|].
  split; [|split].
  - intros H. apply Hw2 in H as [H1 H2]. rewrite H1 in H2. discriminate.
  - intros H. apply Hd2 in H as [H1 H2]. rewrite H1 in H2. discriminate.
  - intros a x y Ha.
    destruct (update_animation_fields
                (overlay (fst (on_mouse_click a x y Button.x1 true))))
      as (_ & _ & Hh' & _).
    rewrite Hh', on_mouse_click_press. cbn. rewrite Ha.
    split; [exact Hstarted | apply negb_involutive].
Qed.

Lemma window_follows_flag_witness :
  let started :=
    fst (OverlayThread.run (OverlayThread.__init__ "loading.gif" 100)
           three_frames 1920 1080) in
  In TkWithdraw
     (snd (OverlayThread.update_animation
             (OverlayThread.set_visibility started false)))
  /\ OverlayThread.is_window_hidden
       (fst (OverlayThread.update_animation
               (OverlayThread.set_visibility started false))) = true.
Proof.
  intros started.
  destruct (window_follows_flag (OverlayThread.set_visibility started false)
              eq_refl) as (Hh & _ & Hw & _).
  split; [|exact Hh].
  apply Hw. split; reflexivity.
Defined.

Lemma overlay_starts_iff_frames_loaded_witness :
  let self := OverlayThread.__init__ "loading.gif" 100 in
  In TkMainloop (snd (OverlayThread.run self three_frames 1920 1080))
  /\ ~ In TkMainloop (snd (OverlayThread.run self (GifOpened []) 1920 1080)).
Proof.
  intros self. split.
  - apply (overlay_starts_iff_frames_loaded self three_frames 1920 1080 eq_refl).
    discriminate.
  - intros H.
    apply (overlay_starts_iff_frames_loaded self (GifOpened []) 1920 1080 eq_refl)
      in H.
    now apply H.
Defined.

Lemma animation_cycles_through_frames_witness :
  let started :=
    fst (OverlayThread.run (OverlayThread.__init__ "loading.gif" 100)
           three_frames 1920 1080) in
  OverlayThread.current_frame_idx
    (fst (animate started [true; true; false; true; true])) = 2
  /\ List.length (drawn (snd (animate started [true; true; false; true; true])))
     = 4.
Proof.
  intros started.
  destruct (animation_cycles_through_frames [true; true; false; true; true]
              started ltac:(discriminate) ltac:(vm_compute; lia))
    as (_ & Hidx & _ & Hlen & _).
  split; [exact Hidx | exact Hlen].
Defined.

(** ** The toggle along a schedule *)

Lemma step_toggle s e s' out :
  step s e = Some (s', out) ->
  is_toggle e = true ->
  is_streaming (app s') = negb (is_streaming (app s)).
Proof.
  intros H Ht.
  destruct e as [x y b p| | | | |]; try discriminate Ht.
  destruct b; try discriminate Ht. destruct p; try discriminate Ht.
  unfold step in H. destruct (torn_down s); [discriminate|].
  cbn in H. injection H as <- <-. reflexivity.
Qed.

Lemma toggles_cons e evs :
  toggles (e :: evs) = (if is_toggle e then S (toggles evs) else toggles evs).
Proof. unfold toggles. cbn [filter]. now destruct (is_toggle e). Qed.

Lemma exec_toggle_parity evs :
  forall s s' tr,
    exec s evs = Some (s', tr) ->
    is_streaming (app s')
    = (if Nat.even (toggles evs) then is_streaming (app s)
       else negb (is_streaming (app s))).
Proof.
  induction evs as [|e evs IH]; intros s s' tr H; cbn in H.
  - now injection H as <- <-.
  - destruct (step s e) as [[s1 out1]|] eqn:He; [|discriminate].
    destruct (exec s1 evs) as [[s2 out2]|] eqn:Hr; [|discriminate].
    injection H as <- <-. rewrite (IH _ _ _ Hr), toggles_cons.
    destruct (is_toggle e) eqn:Ht.
    + rewrite (step_toggle _ _ _ _ He Ht).
      rewrite Nat.even_succ, <- Nat.negb_even.
      destruct (Nat.even (toggles evs)); cbn; [reflexivity|].
      apply negb_involutive.
    + destruct (step_keeps_flags _ _ _ _ He Ht) as [-> _]. reflexivity.
Qed.

(** X5: after any schedule the assistant streams exactly when the side
    button has been pressed an even number of times, and the overlay's
    visibility flag says the same; no other event, and no release or other
    button, counts. *)
Theorem streaming_iff_even_presses :
  forall gif_path icon_size evs s tr,
    exec (boot gif_path icon_size) evs = Some (s, tr) ->
    is_streaming (app s) = Nat.even (toggles evs)
    /\ OverlayThread.should_be_visible (overlay (app s))
       = Nat.even (toggles evs).
Proof.
  intros gif_path icon_size evs s tr H.
  pose proof (exec_toggle_parity evs _ _ _ H) as Hp. cbn in Hp.
  assert (Hs : is_streaming (app s) = Nat.even (toggles evs)).
  { rewrite Hp. now destruct (Nat.even (toggles evs)). }
  split; [exact Hs|].
  rewrite <- Hs. apply reachable_in_sync.
  now exists gif_path, icon_size, evs, tr.
Qed.

Lemma streaming_iff_even_presses_witness :
  is_streaming (app (fst (run_of (paused_schedule ++ idle_schedule)))) = false.
Proof.
  apply (streaming_iff_even_presses "loading.gif" 100
           (paused_schedule ++ idle_schedule) _
           (snd (run_of (paused_schedule ++ idle_schedule)))).
  vm_compute. reflexivity.
Defined.

(** ** Which failures stop the pipeline *)

Lemma step_fatal s e s' out :
  step s e = Some (s', out) -> torn_down s' = fatal e.
Proof.
  intros H. unfold step in H.
  destruct (torn_down s) eqn:Ht; [discriminate|]. unfold torn_down in *.
  destruct e as [x y b p|ev|ev|r|ev|ev].
  - destruct (on_mouse_click (app s) x y b p). injection H as <- <-. exact Ht.
  - unfold mic_loop in H. break_step H; cbn; rewrite ?Heqs0;
      try reflexivity; try (rewrite Heqm in Ht; cbn in Ht; exact Ht);
      destruct (speaker s); auto; discriminate.
  - unfold screen_loop in H. break_step H; exact Ht.
  - unfold send_loop in H. break_step H; exact Ht.
  - destruct (receive_loop (app s) ev). injection H as <- <-. exact Ht.
  - unfold speaker_loop in H. break_step H; cbn;
      destruct (mic s); auto; discriminate.
Qed.

Lemma exec_torn_down s evs r :
  torn_down s = true -> exec s evs = Some r -> evs = [].
Proof.
  intros Ht H. destruct evs as [|e evs]; [reflexivity|].
  cbn in H. now rewrite (torn_down_stops s e Ht) in H.
Qed.

Lemma exec_fatal evs :
  forall s s' tr,
    torn_down s = false ->
    exec s evs = Some (s', tr) ->
    torn_down s' = existsb fatal evs.
Proof.
  induction evs as [|e evs IH]; intros s s' tr Ht H; cbn in H.
  - injection H as <- <-. exact Ht.
  - destruct (step s e) as [[s1 out1]|] eqn:He; [|discriminate].
    destruct (exec s1 evs) as [[s2 out2]|] eqn:Hr; [|discriminate].
    injection H as <- <-. cbn [existsb].
    pose proof (step_fatal _ _ _ _ He) as Hf.
    destruct (fatal e).
    + pose proof (exec_torn_down _ _ _ Hf Hr) as ->.
      cbn in Hr. injection Hr as <- <-. exact Hf.
    + now apply (IH s1 s2 out2).
Qed.

(** X6: the only events that stop the pipeline are failures of the audio
    devices: an audio stream that cannot be opened, a microphone read that
    raises, a speaker write that raises.  A send that raises, a screen
    capture that raises, a receive turn that raises and any mouse click
    leave every loop running.  Once such a failure has happened nothing
    more is served: it is the last event of the schedule. *)
Theorem only_audio_failures_stop_the_pipeline :
  (forall s e s' out, step s e = Some (s', out) -> torn_down s' = fatal e)
  /\ (forall s evs s' tr,
        torn_down s = false ->
        exec s evs = Some (s', tr) ->
        torn_down s' = existsb fatal evs
        /\ forall pre e post,
             evs = pre ++ e :: post -> fatal e = true -> post = [])
  /\ (forall raised, fatal (Send raised) = false)
  /\ (forall ev, fatal (Screen ev) = false)
  /\ (forall ev, fatal (Receive ev) = false)
  /\ (forall x y button pressed, fatal (Click x y button pressed) = false)
  /\ (forall e, fatal (Speaker (SpeakerWrite (Some e))) = true)
  /\ (forall e, fatal (Mic (MicReadDone (ReadFailed e))) = true)
  /\ (forall d, fatal (Mic (MicReadDone (ReadOverflowed d))) = false).
Proof.
  split; [exact step_fatal|]. split; [|now repeat split].
  intros s evs s' tr Ht H. split; [now apply (exec_fatal evs s s' tr)|].
  intros pre e post -> Hf. rewrite exec_app in H.
  destruct (exec s pre) as [[s1 out1]|]; [|discriminate].
  cbn in H. destruct (step s1 e) as [[s2 out2]|] eqn:He; [|discriminate].
  destruct (exec s2 post) as [r|] eqn:Hr; [|discriminate].
  apply (exec_torn_down s2 post r); [|exact Hr].
  now rewrite (step_fatal _ _ _ _ He).
Qed.

Lemma only_audio_failures_stop_the_pipeline_witness :
  torn_down (fst (run_of broken_mic_schedule)) = true
  /\ torn_down (fst (run_of fifo_schedule)) = false.
Proof.
  destruct only_audio_failures_stop_the_pipeline as (_ & Hexec & _).
  split.
  - apply (Hexec (boot "loading.gif" 100) broken_mic_schedule _
             (snd (run_of broken_mic_schedule)) eq_refl).
    vm_compute. reflexivity.
  - apply (Hexec (boot "loading.gif" 100) fifo_schedule _
             (snd (run_of fifo_schedule)) eq_refl).
    vm_compute. reflexivity.
Defined.

(** ** The chunks on their way to the session *)

Lemma audio_not_image c : is_audio c = true -> is_image c = false.
Proof. unfold is_audio, is_image. now destruct (data c). Qed.

Lemma audio_well_formed c : is_audio c = true -> well_formed c = true.
Proof. unfold well_formed. now intros ->. Qed.

Lemma image_well_formed c : is_image c = true -> well_formed c = true.
Proof. unfold well_formed. intros ->. apply orb_true_r. Qed.

Lemma frames_enqueued_app a b :
  frames_enqueued (a ++ b) = frames_enqueued a + frames_enqueued b.
Proof.
  unfold frames_enqueued. now rewrite enqueued_app, filter_app, length_app.
Qed.

Lemma step_well_formed s e s' out :
  holds_well_formed s ->
  step s e = Some (s', out) ->
  holds_well_formed s'
  /\ Forall (fun c => well_formed c = true) (enqueued out)
  /\ frames_enqueued out = List.length (screen_holds (screen s))
                           - List.length (screen_holds (screen s')).
Proof.
  intros (Hmic & Hscr & Hq) H. unfold holds_well_formed.
  unfold step in H. destruct (torn_down s); [discriminate|].
  destruct e as [x y b p|ev|ev|r|ev|ev].
  - unfold on_mouse_click in H. break_step H; cbn;
      rewrite Nat.sub_diag; repeat split; auto.
  - unfold mic_loop in H. break_step H; cbn [app mic screen speaker enqueued
      flat_map List.app out_queue with_out_queue mic_holds];
      rewrite ?Nat.sub_diag; repeat split; auto.
    + apply put_nowait_Some in Heqo as (_ & _ & ->). rewrite ?Heqm in Hmic.
      apply Forall_app. split; [exact Hq|].
      apply (Forall_impl _ audio_well_formed Hmic).
    + rewrite ?Heqm in Hmic. apply (Forall_impl _ audio_well_formed Hmic).
    + rewrite ?Heqm in Hmic. inversion Hmic as [|c' l' Hc _]; subst.
      unfold frames_enqueued. cbn. now rewrite (audio_not_image _ Hc).
  - unfold screen_loop in H. break_step H; cbn [app mic screen speaker enqueued
      flat_map List.app out_queue with_out_queue screen_holds List.length];
      rewrite ?Nat.sub_diag; repeat split; auto;
      rewrite ?Heqs0 in Hscr.
    + apply put_nowait_Some in Heqo as (_ & _ & ->).
      apply Forall_app. split; [exact Hq|].
      apply (Forall_impl _ image_well_formed Hscr).
    + apply (Forall_impl _ image_well_formed Hscr).
    + inversion Hscr as [|c' l' Hc _]; subst.
      unfold frames_enqueued. cbn. now rewrite Hc.
  - unfold send_loop in H. break_step H. cbn. rewrite Nat.sub_diag.
    apply get_nowait_Some in Heqo as (_ & Hi). rewrite Hi in Hq.
    inversion Hq; subst. repeat split; auto.
  - destruct ev as [r| |e].
    + unfold receive_loop in H. break_step H; cbn;
        rewrite Nat.sub_diag; repeat split; auto.
    + rewrite receive_loop_exhausted in H. injection H as <- <-.
      destruct (discards_only (AsyncQueue.items (audio_in_queue (app s))))
        as (H1 & _).
      unfold frames_enqueued. rewrite H1. cbn. rewrite Nat.sub_diag.
      repeat split; auto.
    + cbn in H. injection H as <- <-. cbn. rewrite Nat.sub_diag.
      repeat split; auto.
  - unfold speaker_loop in H. break_step H; cbn;
      rewrite Nat.sub_diag; repeat split; auto.
Qed.

Lemma exec_well_formed evs :
  forall s s' tr,
    holds_well_formed s ->
    exec s evs = Some (s', tr) ->
    holds_well_formed s'
    /\ Forall (fun c => well_formed c = true) (enqueued tr).
Proof.
  induction evs as [|e evs IH]; intros s s' tr Hwf H; cbn in H.
  - injection H as <- <-. split; [exact Hwf | constructor].
  - destruct (step s e) as [[s1 out1]|] eqn:He; [|discriminate].
    destruct (exec s1 evs) as [[s2 out2]|] eqn:Hr; [|discriminate].
    injection H as <- <-.
    destruct (step_well_formed _ _ _ _ Hwf He) as (Hwf1 & Hq1 & _).
    destruct (IH _ _ _ Hwf1 Hr) as (Hwf2 & Hq2).
    split; [exact Hwf2|]. rewrite enqueued_app. apply Forall_app. now split.
Qed.

Lemma boot_well_formed gif_path icon_size :
  holds_well_formed (boot gif_path icon_size).
Proof. repeat split; constructor. Qed.

Lemma well_formed_iff c :
  well_formed c = true
  <-> (exists d, c = {| data := Raw d; mime_type := "audio/pcm" |})
      \/ (exists b, c = {| data := Base64 b; mime_type := "image/jpeg" |}).
Proof.
  unfold well_formed, is_audio, is_image. destruct c as [[d|b] m]; cbn.
  - rewrite orb_false_r, String.eqb_eq. split.
    + intros ->. left. now exists d.
    + intros [[d' H]|[b' H]]; [now injection H | discriminate].
  - rewrite String.eqb_eq. split.
    + intros ->. right. now exists b.
    + intros [[d' H]|[b' H]]; [discriminate | now injection H].
Qed.

(** X7: every chunk the capture loops put on the outbound queue, every
    chunk the queue holds and every chunk handed to the session is of one
    of the two kinds of the data model: raw bytes tagged "audio/pcm" or
    base64 text tagged "image/jpeg".  The microphone loop only ever waits
    with an audio chunk, the screen loop with an image chunk. *)
Theorem chunks_are_audio_or_image :
  forall gif_path icon_size evs s tr,
    exec (boot gif_path icon_size) evs = Some (s, tr) ->
    Forall (fun c => well_formed c = true) (enqueued tr)
    /\ Forall (fun c => well_formed c = true) (sent tr)
    /\ holds_well_formed s
    /\ (forall c,
          well_formed c = true
          <-> (exists d, c = {| data := Raw d; mime_type := "audio/pcm" |})
              \/ (exists b,
                    c = {| data := Base64 b; mime_type := "image/jpeg" |})).
Proof.
  intros gif_path icon_size evs s tr H.
  destruct (exec_well_formed evs _ _ _ (boot_well_formed gif_path icon_size) H)
    as (Hwf & Henq).
  destruct (exec_out_queue evs _ _ _ H) as (_ & Hi & Hs).
  cbn in Hi. rewrite Hi in Henq. apply Forall_app in Henq as [Hdeq Hq].
  repeat split; try apply Hwf.
  - rewrite Hi. apply Forall_app. now split.
  - now rewrite Hs.
  - apply well_formed_iff.
  - apply well_formed_iff.
Qed.

Lemma chunks_are_audio_or_image_witness :
  Forall (fun c => well_formed c = true) (sent (snd (run_of fifo_schedule))).
Proof.
  apply (chunks_are_audio_or_image "loading.gif" 100 fifo_schedule
           (fst (run_of fifo_schedule)) (snd (run_of fifo_schedule))).
  vm_compute. reflexivity.
Defined.

(** ** The pace of the screen loop *)

Lemma long_sleeps_app a b : long_sleeps (a ++ b) = long_sleeps a + long_sleeps b.
Proof. unfold long_sleeps. now rewrite filter_app, length_app. Qed.

Lemma discards_no_sleep l : long_sleeps (map InDiscard l) = 0.
Proof. induction l; auto. Qed.

Lemma step_pacing s e s' out :
  step s e = Some (s', out) ->
  captures out + capture_in_flight (screen s)
  = long_sleeps out + capture_in_flight (screen s')
  /\ List.length (screen_holds (screen s))
     - List.length (screen_holds (screen s')) <= long_sleeps out.
Proof.
  intros H. unfold step in H. destruct (torn_down s); [discriminate|].
  destruct e as [x y b p|ev|ev|r|ev|ev].
  - unfold on_mouse_click in H. break_step H; cbn; lia.
  - unfold mic_loop in H. break_step H; cbn; lia.
  - unfold screen_loop in H. break_step H; cbn; lia.
  - unfold send_loop in H. break_step H; cbn; lia.
  - destruct ev as [r| |e].
    + unfold receive_loop in H. break_step H; cbn; lia.
    + rewrite receive_loop_exhausted in H. injection H as <- <-.
      destruct (discards_only (AsyncQueue.items (audio_in_queue (app s))))
        as (_ & _ & _ & _ & _ & _ & _ & H8).
      rewrite H8, discards_no_sleep. cbn. lia.
    + cbn in H. injection H as <- <-. cbn. lia.
  - unfold speaker_loop in H. break_step H; cbn; lia.
Qed.

Lemma exec_pacing evs :
  forall s s' tr,
    holds_well_formed s ->
    exec s evs = Some (s', tr) ->
    captures tr + capture_in_flight (screen s)
    = long_sleeps tr + capture_in_flight (screen s')
    /\ frames_enqueued tr <= long_sleeps tr.
Proof.
  induction evs as [|e evs IH]; intros s s' tr Hwf H; cbn in H.
  - injection H as <- <-. cbn. lia.
  - destruct (step s e) as [[s1 out1]|] eqn:He; [|discriminate].
    destruct (exec s1 evs) as [[s2 out2]|] eqn:Hr; [|discriminate].
    injection H as <- <-.
    destruct (step_well_formed _ _ _ _ Hwf He) as (Hwf1 & _ & Hf1).
    destruct (step_pacing _ _ _ _ He) as (Hc1 & Hl1).
    destruct (IH _ _ _ Hwf1 Hr) as (Hc2 & Hl2).
    rewrite captures_app, long_sleeps_app, frames_enqueued_app. lia.
Qed.

(** X8: the screen loop captures at most once per second of sleep.  Along
    every schedule each capture that was started has either been followed
    by its one-second sleep (after the frame was enqueued, or after the
    error was printed) or is still under way, and at most one is under way;
    no frame is enqueued without a capture. *)
Theorem screen_capture_pace :
  forall gif_path icon_size evs s tr,
    exec (boot gif_path icon_size) evs = Some (s, tr) ->
    captures tr = long_sleeps tr + capture_in_flight (screen s)
    /\ capture_in_flight (screen s) <= 1
    /\ frames_enqueued tr <= long_sleeps tr
    /\ frames_enqueued tr <= captures tr.
Proof.
  intros gif_path icon_size evs s tr H.
  destruct (exec_pacing evs _ _ _ (boot_well_formed gif_path icon_size) H)
    as (Hc & Hl).
  cbn in Hc. rewrite Nat.add_0_r in Hc.
  repeat split; try lia. destruct (screen s); cbn; lia.
Qed.

Lemma screen_capture_pace_witness :
  captures (snd (run_of fifo_schedule)) = 1
  /\ long_sleeps (snd (run_of fifo_schedule)) = 1.
Proof.
  destruct (screen_capture_pace "loading.gif" 100 fifo_schedule
              (fst (run_of fifo_schedule)) (snd (run_of fifo_schedule))
              ltac:(vm_compute; reflexivity)) as (Hc & _).
  split; [exact Hc | reflexivity].
Defined.

(** ** From the device reads to the queue *)

Lemma Subseq_nil_l {A} (l : list A) : Subseq [] l.
Proof. induction l; constructor; auto. Qed.

Lemma Subseq_refl {A} (l : list A) : Subseq l l.
Proof. induction l; [apply Subseq_nil | now apply Subseq_keep]. Qed.

Lemma Subseq_app {A} (a b c d : list A) :
  Subseq a b -> Subseq c d -> Subseq (a ++ c) (b ++ d).
Proof.
  induction 1; intros Hcd; cbn.
  - exact Hcd.
  - apply Subseq_skip. auto.
  - apply Subseq_keep. auto.
Qed.

Lemma Subseq_trans {A} (l1 l2 l3 : list A) :
  Subseq l1 l2 -> Subseq l2 l3 -> Subseq l1 l3.
Proof.
  intros H12 H23. revert l1 H12.
  induction H23 as [|x l2 l3 H IH|x l2 l3 H IH]; intros l1 H12.
  - exact H12.
  - apply Subseq_skip. now apply IH.
  - inversion H12; subst.
    + apply Subseq_skip. now apply IH.
    + apply Subseq_keep. now apply IH.
Qed.

Lemma Subseq_length {A} (l1 l2 : list A) :
  Subseq l1 l2 -> List.length l1 <= List.length l2.
Proof. induction 1; cbn; lia. Qed.

Lemma audio_payloads_app a b :
  audio_payloads (a ++ b) = audio_payloads a ++ audio_payloads b.
Proof. apply flat_map_app. Qed.

Lemma reads_data_cons e evs : reads_data (e :: evs) = reads_data [e] ++ reads_data evs.
Proof.
  change (e :: evs) with ([e] ++ evs). unfold reads_data. apply flat_map_app.
Qed.

Lemma image_no_audio c : is_image c = true -> audio_payloads [c] = [].
Proof. unfold is_image, audio_payloads. cbn. now destruct (data c). Qed.

(** What one step does to the audio between the device and the queue. *)
Lemma step_audio_capture s e s' out :
  holds_well_formed s ->
  step s e = Some (s', out) ->
  (is_streaming (app s) = true ->
   audio_payloads (mic_holds (mic s)) ++ reads_data [e]
   = audio_payloads (enqueued out) ++ audio_payloads (mic_holds (mic s')))
  /\ Subseq (audio_payloads (enqueued out) ++ audio_payloads (mic_holds (mic s')))
            (audio_payloads (mic_holds (mic s)) ++ reads_data [e]).
Proof.
  intros (_ & Hscr & _) H.
  assert (Hsame : mic s' = mic s -> reads_data [e] = [] ->
                  audio_payloads (enqueued out) = [] ->
                  (is_streaming (app s) = true ->
                   audio_payloads (mic_holds (mic s)) ++ reads_data [e]
                   = audio_payloads (enqueued out)
                       ++ audio_payloads (mic_holds (mic s')))
                  /\ Subseq (audio_payloads (enqueued out)
                               ++ audio_payloads (mic_holds (mic s')))
                            (audio_payloads (mic_holds (mic s))
                               ++ reads_data [e])).
  { intros -> -> ->. cbn. rewrite app_nil_r. split; auto using Subseq_refl. }
  unfold step in H. destruct (torn_down s); [discriminate|].
  destruct e as [x y b p|ev|ev|r|ev|ev].
  - unfold on_mouse_click in H. break_step H; now apply Hsame.
  - unfold mic_loop in H. unfold reads_data. cbn [flat_map].
    break_step H; cbn; rewrite ?app_nil_r;
      try (split; [intros; congruence || reflexivity
                  | auto using Subseq_refl, Subseq_nil_l]).
  - unfold screen_loop in H. break_step H; try (now apply Hsame).
    rewrite ?Heqs0 in Hscr. inversion Hscr as [|c l Hc _]; subst.
    apply Hsame; auto. cbn [enqueued flat_map List.app].
    now apply image_no_audio.
  - unfold send_loop in H. break_step H; now apply Hsame.
  - destruct ev as [r| |e].
    + unfold receive_loop in H. break_step H; now apply Hsame.
    + rewrite receive_loop_exhausted in H. injection H as <- <-.
      apply Hsame; auto.
      destruct (discards_only (AsyncQueue.items (audio_in_queue (app s))))
        as (-> & _). reflexivity.
    + cbn in H. injection H as <- <-. now apply Hsame.
  - unfold speaker_loop in H. break_step H; now apply Hsame.
Qed.

Lemma exec_audio_lossless evs :
  forall s s' tr,
    holds_well_formed s ->
    is_streaming (app s) = true ->
    existsb is_toggle evs = false ->
    exec s evs = Some (s', tr) ->
    audio_payloads (mic_holds (mic s)) ++ reads_data evs
    = audio_payloads (enqueued tr) ++ audio_payloads (mic_holds (mic s')).
Proof.
  induction evs as [|e evs IH]; intros s s' tr Hwf Hon Hnt H; cbn in H, Hnt.
  - injection H as <- <-. cbn. now rewrite app_nil_r.
  - apply orb_false_iff in Hnt as [Hne Hnt].
    destruct (step s e) as [[s1 out1]|] eqn:He; [|discriminate].
    destruct (exec s1 evs) as [[s2 out2]|] eqn:Hr; [|discriminate].
    injection H as <- <-.
    destruct (step_well_formed _ _ _ _ Hwf He) as (Hwf1 & _).
    destruct (step_audio_capture _ _ _ _ Hwf He) as (Heq & _).
    destruct (step_keeps_flags _ _ _ _ He Hne) as [Hf _].
    rewrite Hon in Hf.
    rewrite reads_data_cons, enqueued_app, audio_payloads_app.
    rewrite app_assoc, (Heq Hon), <- !app_assoc.
    now rewrite (IH _ _ _ Hwf1 Hf Hnt Hr).
Qed.

Lemma exec_audio_subseq evs :
  forall s s' tr,
    holds_well_formed s ->
    exec s evs = Some (s', tr) ->
    Subseq (audio_payloads (enqueued tr) ++ audio_payloads (mic_holds (mic s')))
           (audio_payloads (mic_holds (mic s)) ++ reads_data evs).
Proof.
  induction evs as [|e evs IH]; intros s s' tr Hwf H; cbn in H.
  - injection H as <- <-. cbn. rewrite app_nil_r. apply Subseq_refl.
  - destruct (step s e) as [[s1 out1]|] eqn:He; [|discriminate].
    destruct (exec s1 evs) as [[s2 out2]|] eqn:Hr; [|discriminate].
    injection H as <- <-.
    destruct (step_well_formed _ _ _ _ Hwf He) as (Hwf1 & _).
    destruct (step_audio_capture _ _ _ _ Hwf He) as (_ & Hsub).
    pose proof (IH _ _ _ Hwf1 Hr) as IHsub.
    rewrite reads_data_cons, enqueued_app, audio_payloads_app.
    rewrite <- app_assoc.
    eapply Subseq_trans.
    + apply Subseq_app; [apply Subseq_refl | exact IHsub].
    + rewrite !app_assoc. apply Subseq_app; [exact Hsub | apply Subseq_refl].
Qed.

(** X9: while the assistant streams, no audio is lost between the device
    and the queue.  Along every schedule without a press of the side
    button, the audio enqueued, followed by the chunk the microphone loop
    may be waiting to put, is exactly the data the device reads returned,
    in the order of the reads: a full queue delays the microphone loop, it
    never makes it drop a buffer. *)
Theorem streaming_audio_is_lossless :
  forall gif_path icon_size evs s tr,
    existsb is_toggle evs = false ->
    exec (boot gif_path icon_size) evs = Some (s, tr) ->
    audio_payloads (enqueued tr) ++ audio_payloads (mic_holds (mic s))
    = reads_data evs.
Proof.
  intros gif_path icon_size evs s tr Hnt H.
  symmetry.
  apply (exec_audio_lossless evs _ _ _
           (boot_well_formed gif_path icon_size) eq_refl Hnt H).
Qed.

Lemma streaming_audio_is_lossless_witness :
  audio_payloads (enqueued (snd (run_of fifo_schedule)))
  = [[Byte.x01; Byte.x02]; [Byte.x03]].
Proof.
  rewrite <- (app_nil_r (audio_payloads (enqueued (snd (run_of fifo_schedule))))).
  apply (streaming_audio_is_lossless "loading.gif" 100 fifo_schedule
           (fst (run_of fifo_schedule)) (snd (run_of fifo_schedule))).
  - reflexivity.
  - vm_compute. reflexivity.
Defined.

(** X10: whatever is pressed, the audio put on the queue, and so the audio
    handed to the session, is a selection of the data the device reads
    returned, in the order of the reads: buffers read while paused are left
    out, nothing is duplicated, reordered or made up. *)
Theorem enqueued_audio_comes_from_reads :
  forall gif_path icon_size evs s tr,
    exec (boot gif_path icon_size) evs = Some (s, tr) ->
    Subseq (audio_payloads (enqueued tr)) (reads_data evs)
    /\ Subseq (audio_payloads (sent tr)) (reads_data evs)
    /\ List.length (audio_payloads (enqueued tr)) <= List.length (reads_data evs).
Proof.
  intros gif_path icon_size evs s tr H.
  pose proof (exec_audio_subseq evs _ _ _
                (boot_well_formed gif_path icon_size) H) as Hsub.
  cbn [boot start mic mic_holds audio_payloads flat_map List.app] in Hsub.
  assert (Henq : Subseq (audio_payloads (enqueued tr)) (reads_data evs)).
  { eapply Subseq_trans; [|exact Hsub].
    rewrite <- (app_nil_r (audio_payloads (enqueued tr))) at 1.
    apply Subseq_app; [apply Subseq_refl | apply Subseq_nil_l]. }
  split; [exact Henq|]. split; [|now apply Subseq_length].
  destruct (exec_out_queue evs _ _ _ H) as (_ & Hi & Hs).
  cbn in Hi. eapply Subseq_trans; [|exact Henq].
  rewrite Hi, Hs, audio_payloads_app.
  rewrite <- (app_nil_r (audio_payloads (dequeued tr))) at 1.
  apply Subseq_app; [apply Subseq_refl | apply Subseq_nil_l].
Qed.

Lemma enqueued_audio_comes_from_reads_witness :
  Subseq (audio_payloads (enqueued (snd (run_of (paused_schedule ++ idle_schedule)))))
         (reads_data (paused_schedule ++ idle_schedule))
  /\ List.length (reads_data (paused_schedule ++ idle_schedule)) = 2
  /\ audio_payloads (enqueued (snd (run_of (paused_schedule ++ idle_schedule))))
     = [].
Proof.
  split; [|split; reflexivity].
  apply (enqueued_audio_comes_from_reads "loading.gif" 100
           (paused_schedule ++ idle_schedule)
           (fst (run_of (paused_schedule ++ idle_schedule)))
           (snd (run_of (paused_schedule ++ idle_schedule)))).
  vm_compute. reflexivity.
Defined.

(** ** A full queue holds the capture loops back *)

Lemma step_stalled s e s' out :
  AsyncQueue.full (out_queue (app s)) = true ->
  is_send e = false ->
  step s e = Some (s', out) ->
  enqueued out = []
  /\ (forall c, mic s = MicPutting c ->
        mic s' = MicPutting c /\ device_reads out = 0)
  /\ (forall frame, screen s = ScreenPutting frame ->
        screen s' = ScreenPutting frame /\ captures out = 0).
Proof.
  intros Hf Hns H. unfold step in H. destruct (torn_down s); [discriminate|].
  assert (Hput : forall c, AsyncQueue.put_nowait c (out_queue (app s)) = None).
  { intros c. unfold AsyncQueue.put_nowait. now rewrite Hf. }
  destruct e as [x y b p|ev|ev|r|ev|ev]; try discriminate Hns.
  - unfold on_mouse_click in H. break_step H; cbn; auto.
  - unfold mic_loop in H. rewrite ?Hput in H.
    break_step H; cbn; repeat split; auto; try discriminate;
      try (rewrite Hput in *; discriminate).
  - unfold screen_loop in H. rewrite ?Hput in H.
    break_step H; cbn; repeat split; auto; try discriminate;
      try (rewrite Hput in *; discriminate).
  - destruct ev as [r| |e].
    + unfold receive_loop in H. break_step H; cbn; auto.
    + rewrite receive_loop_exhausted in H. injection H as <- <-.
      destruct (discards_only (AsyncQueue.items (audio_in_queue (app s))))
        as (H1 & _ & _ & _ & _ & _ & H7 & H8).
      rewrite H1, H7, H8. cbn. auto.
    + cbn in H. injection H as <- <-. cbn. auto.
  - unfold speaker_loop in H. break_step H; cbn; auto.
Qed.

(** X11: a full outbound queue holds both capture loops back.  From a state
    with a full queue, along any schedule in which the sender is not
    served, nothing is enqueued; a microphone loop that waits to put a
    chunk goes on waiting with that chunk and performs no device read, and
    a screen loop that waits to put a frame goes on waiting with that frame
    and captures nothing. *)
Theorem full_queue_stalls_capture :
  forall evs s s' tr,
    AsyncQueue.full (out_queue (app s)) = true ->
    existsb is_send evs = false ->
    exec s evs = Some (s', tr) ->
    enqueued tr = []
    /\ out_queue (app s') = out_queue (app s)
    /\ (forall c, mic s = MicPutting c ->
          mic s' = MicPutting c /\ device_reads tr = 0)
    /\ (forall frame, screen s = ScreenPutting frame ->
          screen s' = ScreenPutting frame /\ captures tr = 0).
Proof.
  induction evs as [|e evs IH]; intros s s' tr Hf Hns H; cbn in H, Hns.
  - injection H as <- <-. repeat split; auto.
  - apply orb_false_iff in Hns as [Hne Hns].
    destruct (step s e) as [[s1 out1]|] eqn:He; [|discriminate].
    destruct (exec s1 evs) as [[s2 out2]|] eqn:Hr; [|discriminate].
    injection H as <- <-.
    pose proof (step_without_send _ _ _ _ He Hne Hf) as Hq.
    destruct (step_stalled _ _ _ _ Hf Hne He) as (He1 & Hm1 & Hs1).
    rewrite <- Hq in Hf.
    destruct (IH _ _ _ Hf Hns Hr) as (He2 & Hq2 & Hm2 & Hs2).
    rewrite enqueued_app, He1, He2, device_reads_app, captures_app.
    split; [reflexivity|]. split; [congruence|]. split.
    + intros c Hc. destruct (Hm1 c Hc) as [Hc1 ->].
      destruct (Hm2 c Hc1) as [Hc2 ->]. auto.
    + intros f Hc. destruct (Hs1 f Hc) as [Hc1 ->].
      destruct (Hs2 f Hc1) as [Hc2 ->]. auto.
Qed.

Lemma full_queue_stalls_capture_witness :
  let full := fst (run_of full_schedule) in
  let evs := [ Click 10 20 Button.left true;
               Receive (RecvRaises "timed out");
               Screen ScreenCheck;
               Screen (ScreenCaptured (inr "/9j/4AAQSkZJRg==")) ] in
  mic (fst (run_from full evs)) = mic full
  /\ device_reads (snd (run_from full evs)) = 0.
Proof.
  intros full evs.
  destruct (full_queue_stalls_capture evs full
              (fst (run_from full evs)) (snd (run_from full evs))
              eq_refl eq_refl ltac:(vm_compute; reflexivity))
    as (_ & _ & Hmic & _).
  destruct (Hmic {| data := Raw [Byte.x02]; mime_type := "audio/pcm" |} eq_refl)
    as [H1 H2].
  split; [exact H1 | exact H2].
Defined.

(** ** Order and fate of the received audio *)

Lemma exec_inbound_history evs :
  forall s s' tr,
    exec s evs = Some (s', tr) ->
    exists hist,
      AsyncQueue.items (audio_in_queue (app s)) ++ received tr
      = hist ++ AsyncQueue.items (audio_in_queue (app s'))
      /\ Subseq (played tr) hist
      /\ List.length hist
         = List.length (played tr) + List.length (discarded tr).
Proof.
  induction evs as [|e evs IH]; intros s s' tr H; cbn in H.
  - injection H as <- <-. exists []. cbn. rewrite app_nil_r.
    repeat split. apply Subseq_nil.
  - destruct (step s e) as [[s1 out1]|] eqn:He; [|discriminate].
    destruct (exec s1 evs) as [[s2 out2]|] eqn:Hr; [|discriminate].
    injection H as <- <-.
    destruct (IH _ _ _ Hr) as (hist2 & Hi2 & Hsub2 & Hlen2).
    assert (Hstep : exists hist1,
               AsyncQueue.items (audio_in_queue (app s)) ++ received out1
               = hist1 ++ AsyncQueue.items (audio_in_queue (app s1))
               /\ Subseq (played out1) hist1
               /\ List.length hist1
                  = List.length (played out1) + List.length (discarded out1)).
    { destruct (step_audio_in _ _ _ _ He) as (_ & Hmid & Hend).
      destruct (is_turn_end e).
      - destruct (Hend eq_refl) as (Hi & Hd & Hp & Hrc).
        exists (AsyncQueue.items (audio_in_queue (app s))).
        rewrite Hi, Hd, Hp, Hrc. repeat split. apply Subseq_nil_l.
      - destruct (Hmid eq_refl) as (Hi & Hd).
        exists (played out1). rewrite Hd. cbn. rewrite Nat.add_0_r.
        repeat split; [exact Hi | apply Subseq_refl]. }
    destruct Hstep as (hist1 & Hi1 & Hsub1 & Hlen1).
    exists (hist1 ++ hist2).
    rewrite received_app, played_app, discarded_app, !length_app.
    repeat split.
    + rewrite app_assoc, Hi1, <- !app_assoc. now rewrite Hi2.
    + now apply Subseq_app.
    + lia.
Qed.

(** X12: the audio written to the output device is a selection of the audio
    received, in arrival order: nothing is played twice, out of order, or
    without having been received.  Every buffer received has been played,
    dropped at a turn boundary, or is still queued. *)
Theorem playback_follows_arrival :
  forall gif_path icon_size evs s tr,
    exec (boot gif_path icon_size) evs = Some (s, tr) ->
    Subseq (played tr) (received tr)
    /\ List.length (received tr)
       = List.length (played tr) + List.length (discarded tr)
         + AsyncQueue.qsize (audio_in_queue (app s)).
Proof.
  intros gif_path icon_size evs s tr H.
  destruct (exec_inbound_history evs _ _ _ H) as (hist & Hi & Hsub & Hlen).
  cbn in Hi. rewrite Hi. split.
  - rewrite <- (app_nil_r (played tr)).
    apply Subseq_app; [exact Hsub | apply Subseq_nil_l].
  - rewrite length_app. unfold AsyncQueue.qsize. lia.
Qed.

Lemma playback_follows_arrival_witness :
  let evs := preload_schedule
               ++ [Speaker (SpeakerWrite None); Receive RecvExhausted]
               ++ turn_events next_turn in
  List.length (received (snd (run_of evs))) = 4
  /\ List.length (played (snd (run_of evs))) = 1
  /\ List.length (discarded (snd (run_of evs))) = 1
  /\ Subseq (played (snd (run_of evs))) (received (snd (run_of evs))).
Proof.
  intros evs. repeat split.
  apply (playback_follows_arrival "loading.gif" 100 evs
           (fst (run_of evs)) (snd (run_of evs))).
  vm_compute. reflexivity.
Defined.

(** ** The receiver is never held back *)

Lemma audio_of_repeat b n :
  audio_of (repeat {| r_data := Some [b]; r_text := None |} n) = repeat [b] n.
Proof.
  induction n as [|n IH]; [reflexivity|].
  cbn [repeat]. rewrite audio_of_cons, IH. reflexivity.
Qed.

(** X13: the inbound queue has no capacity bound and never holds the
    receiver back: as long as the pipeline is up every event of the receive
    loop is served, and for every [n] there is a state of the program with
    [n] buffers queued. *)
Theorem inbound_queue_is_unbounded :
  (forall s ev,
     torn_down s = false ->
     exists s' out, step s (Receive ev) = Some (s', out))
  /\ (forall s, reachable s ->
        AsyncQueue.full (audio_in_queue (app s)) = false)
  /\ (forall n, exists s,
        reachable s /\ torn_down s = false
        /\ AsyncQueue.qsize (audio_in_queue (app s)) = n).
Proof.
  split; [|split].
  - intros s ev Ht. unfold step. rewrite Ht.
    destruct (receive_loop (app s) ev) as [a out]. eauto.
  - intros s Hr. unfold AsyncQueue.full.
    now rewrite (reachable_audio_in_unbounded s Hr).
  - intros n.
    destruct (exec_turn_events
                (repeat {| r_data := Some [Byte.x01]; r_text := None |} n)
                (boot "loading.gif" 100) eq_refl)
      as (s & tr & He & Hi & _ & _ & _ & _ & Hmic & _ & Hspk).
    { cbn. lia. }
    exists s. split; [|split].
    + now exists "loading.gif", 100%Z,
        (turn_events (repeat {| r_data := Some [Byte.x01]; r_text := None |} n)),
        tr.
    + unfold torn_down. now rewrite Hmic, Hspk.
    + unfold AsyncQueue.qsize. rewrite Hi, audio_of_repeat. cbn.
      apply repeat_length.
Qed.

Lemma inbound_queue_is_unbounded_witness :
  AsyncQueue.full
    (audio_in_queue (app (fst (run_of preload_schedule)))) = false.
Proof.
  destruct inbound_queue_is_unbounded as (_ & Hfull & _).
  apply Hfull. apply run_of_reachable. vm_compute. discriminate.
Defined.

(** ** What a turn prints *)

Lemma printed_app a b : printed (a ++ b) = printed a ++ printed b.
Proof. apply flat_map_app. Qed.

Lemma text_of_cons r rs : text_of (r :: rs) = text_of [r] ++ text_of rs.
Proof. unfold text_of. cbn. now rewrite app_nil_r. Qed.

Lemma step_receive_printed s r s' out :
  (AsyncQueue.maxsize (audio_in_queue (app s)) <= 0)%Z ->
  step s (Receive (RecvResponse r)) = Some (s', out) ->
  printed out = text_of [r].
Proof.
  intros Hm H. unfold step in H. destruct (torn_down s); [discriminate|].
  unfold receive_loop in H. unfold text_of. cbn [flat_map].
  destruct (truthy_bytes (r_data r)) eqn:Hd.
  - destruct (r_data r) as [d|]; [|discriminate].
    rewrite unbounded_put_nowait in H by exact Hm.
    injection H as <- <-. reflexivity.
  - destruct (r_text r) as [[|c t]|]; cbn in H; injection H as <- <-;
      reflexivity.
Qed.

Lemma exec_turn_printed rs :
  forall s s' tr,
    (AsyncQueue.maxsize (audio_in_queue (app s)) <= 0)%Z ->
    exec s (turn_events rs) = Some (s', tr) ->
    printed tr = text_of rs.
Proof.
  induction rs as [|r rs IH]; intros s s' tr Hm H.
  - cbn in H. now injection H as <- <-.
  - cbn [turn_events map exec] in H. fold (turn_events rs) in H.
    destruct (step s (Receive (RecvResponse r))) as [[s1 out1]|] eqn:He;
      [|discriminate].
    destruct (exec s1 (turn_events rs)) as [[s2 out2]|] eqn:Hr; [|discriminate].
    injection H as <- <-.
    rewrite printed_app, text_of_cons, (step_receive_printed _ _ _ _ Hm He).
    f_equal. apply (IH s1 s2 out2); [|exact Hr].
    destruct (step_audio_in _ _ _ _ He) as (-> & _). exact Hm.
Qed.

(** X14: of each response of a turn the receiver uses the audio or the
    text, never both.  A whole turn pushes the non-empty audio payloads of
    its responses, in order, and prints the non-empty texts of exactly
    those responses that carried no audio, in order; a response with both
    audio and text has its text left unprinted, and one with an empty
    payload counts as one without audio. *)
Theorem turn_uses_audio_or_text :
  forall s rs,
    reachable s ->
    torn_down s = false ->
    exists s' tr,
      exec s (turn_events rs) = Some (s', tr)
      /\ received tr = audio_of rs
      /\ printed tr = text_of rs
      /\ List.length (received tr) + List.length (printed tr)
         <= List.length rs.
Proof.
  intros s rs Hr Ht.
  pose proof (reachable_audio_in_unbounded s Hr) as Hm.
  destruct (exec_turn_events rs s Ht) as (s' & tr & He & _ & _ & Hrc & _).
  { rewrite Hm. lia. }
  exists s', tr. split; [exact He|]. split; [exact Hrc|].
  assert (Hp : printed tr = text_of rs).
  { apply (exec_turn_printed rs s s' tr); [rewrite Hm; lia | exact He]. }
  split; [exact Hp|]. rewrite Hrc, Hp. clear.
  induction rs as [|r rs IH]; [cbn; lia|].
  rewrite audio_of_cons, text_of_cons, !length_app. cbn [List.length].
  assert (List.length (audio_of [r]) + List.length (text_of [r]) <= 1).
  { unfold audio_of, text_of. cbn.
    destruct (r_data r) as [[|b d]|], (r_text r) as [[|c t]|]; cbn; lia. }
  lia.
Qed.

Lemma turn_uses_audio_or_text_witness :
  let s := fst (run_of preload_schedule) in
  exists s' tr,
    exec s (turn_events mixed_turn) = Some (s', tr)
    /\ received tr = [[Byte.x04]]
    /\ printed tr = ["hello"; "world"].
Proof.
  intros s.
  destruct (turn_uses_audio_or_text s mixed_turn
              (run_of_reachable preload_schedule ltac:(vm_compute; discriminate))
              eq_refl)
    as (s' & tr & He & Hr & Hp & _).
  exists s', tr. split; [exact He|]. split; [exact Hr | exact Hp].
Defined.

(** ** Pausing and the chunks already queued *)

(** X15: pausing does not empty the outbound queue.  A press of the side
    button is always served while the pipeline is up and leaves both queues
    and all loops where they are; the chunks queued before the press are
    still handed to the session afterwards, all of them and in order, while
    the assistant is paused. *)
Theorem pause_keeps_queued_chunks :
  forall s x y raiseds,
    torn_down s = false ->
    List.length raiseds = AsyncQueue.qsize (out_queue (app s)) ->
    exists s1 out1 s2 tr,
      step s (Click x y Button.x1 true) = Some (s1, out1)
      /\ is_streaming (app s1) = negb (is_streaming (app s))
      /\ out_queue (app s1) = out_queue (app s)
      /\ audio_in_queue (app s1) = audio_in_queue (app s)
      /\ mic s1 = mic s /\ screen s1 = screen s /\ speaker s1 = speaker s
      /\ exec s1 (map Send raiseds) = Some (s2, tr)
      /\ sent tr = AsyncQueue.items (out_queue (app s))
      /\ is_streaming (app s2) = negb (is_streaming (app s)).
Proof.
  intros s x y raiseds Ht Hlen.
  set (s1 := {| app := fst (on_mouse_click (app s) x y Button.x1 true);
                mic := mic s; screen := screen s; speaker := speaker s |}).
  assert (Hstep : step s (Click x y Button.x1 true)
                  = Some (s1, snd (on_mouse_click (app s) x y Button.x1 true))).
  { unfold step. rewrite Ht. reflexivity. }
  assert (Ht1 : torn_down s1 = false) by exact Ht.
  destruct (send_loop_drains raiseds s1 Ht1 Hlen) as (s2 & tr & He & Hs & _).
  exists s1, (snd (on_mouse_click (app s) x y Button.x1 true)), s2, tr.
  repeat split; auto.
  destruct (exec_keeps_flags (map Send raiseds) s1 s2 tr) as [-> _]; auto.
  clear. induction raiseds; auto.
Qed.

Lemma pause_keeps_queued_chunks_witness :
  let full := fst (run_of full_schedule) in
  exists s1 out1 s2 tr,
    step full (Click 10 20 Button.x1 true) = Some (s1, out1)
    /\ exec s1 (map Send [None; Some "connection closed"; None; None; None])
       = Some (s2, tr)
    /\ List.length (sent tr) = 5
    /\ is_streaming (app s2) = false.
Proof.
  intros full.
  destruct (pause_keeps_queued_chunks full 10 20
              [None; Some "connection closed"; None; None; None]
              eq_refl eq_refl)
    as (s1 & out1 & s2 & tr & Hs & _ & _ & _ & _ & _ & _ & He & Hsent & Hoff).
  exists s1, out1, s2, tr. split; [exact Hs|]. split; [exact He|].
  split; [now rewrite Hsent | exact Hoff].
Defined.

(** ** How the program ends *)

Lemma group_end_torn_down s :
  torn_down s = true ->
  exists e, group_end s = Some (BodyExceptionGroup [e]).
Proof.
  unfold torn_down, group_end.
  destruct (mic s), (speaker s); intros H; try discriminate H; eauto.
Qed.

(** X16: however the task group ends, [run] stops the mouse listener and
    then terminates PyAudio, as the last things it does, and never exits
    the process itself.  It returns normally after a cancellation or an
    exception group of the tasks (printing the traceback of the latter) and
    lets any other exception through.  So when a device failure has stopped
    the pipeline, [run] prints the traceback, cleans up and returns, and
    the main thread does not call [os._exit]: it does so, with status 0,
    on a keyboard interrupt only. *)
Theorem run_always_cleans_up :
  (forall b,
     (exists handled,
        fst (run_end b) = handled ++ [ListenerStop; PyAudioTerminate]
        /\ forall a, In a handled -> exists es, a = TracebackPrint es)
     /\ (snd (run_end b) = None <-> forall e, b <> BodyRaises e)
     /\ (forall status, ~ In (ExitProcess status) (fst (run_end b))))
  /\ (forall s,
        torn_down s = true ->
        exists e,
          group_end s = Some (BodyExceptionGroup [e])
          /\ run_end (BodyExceptionGroup [e])
             = ([TracebackPrint [e]; ListenerStop; PyAudioTerminate], None)
          /\ main_end (run_outcome (snd (run_end (BodyExceptionGroup [e]))))
             = [])
  /\ (forall r status,
        In (ExitProcess status) (main_end r)
        <-> status = 0%Z /\ r = RunKeyboardInterrupt).
Proof.
  split; [|split].
  - intros [|es|e]; cbn.
    + split; [exists []; split; [reflexivity | intros a []]|].
      split; [split; [discriminate | reflexivity]|].
      intros status [H|[H|[]]]; discriminate.
    + split; [exists [TracebackPrint es]; split;
               [reflexivity | intros a [<-|[]]; eauto]|].
      split; [split; [discriminate | reflexivity]|].
      intros status [H|[H|[H|[]]]]; discriminate.
    + split; [exists []; split; [reflexivity | intros a []]|].
      split; [split; [discriminate | intros H; now destruct (H e)]|].
      intros status [H|[H|[]]]; discriminate.
  - intros s Ht. destruct (group_end_torn_down s Ht) as [e He].
    exists e. repeat split. exact He.
  - intros [| |e] status; cbn; split.
    + intros [].
    + intros [_ H]. discriminate.
    + intros [H|[]]. injection H as <-. auto.
    + intros [-> _]. auto.
    + intros [].
    + intros [_ H]. discriminate.
Qed.

Lemma run_always_cleans_up_witness :
  exists e,
    group_end (fst (run_of broken_mic_schedule))
    = Some (BodyExceptionGroup [e])
    /\ run_end (BodyExceptionGroup [e])
       = ([TracebackPrint [e]; ListenerStop; PyAudioTerminate], None).
Proof.
  destruct run_always_cleans_up as (_ & Hdown & _).
  destruct (Hdown (fst (run_of broken_mic_schedule)) eq_refl)
    as (e & Hg & Hr & _).
  exists e. split; [exact Hg | exact Hr].
Defined.

(** ** A screen capture that fails *)

(** X17: a screen capture that raises is reported and tried again after the
    same one-second interval.  From its test, with the flag on, the screen
    loop that meets a failing capture prints the error, sleeps one second
    and is back at its test in exactly the state it started from: nothing
    was enqueued, no loop has stopped, and the next iteration captures
    again. *)
Theorem failed_capture_is_retried :
  forall s e,
    torn_down s = false ->
    is_streaming (app s) = true ->
    screen s = ScreenGuard ->
    exec s [Screen ScreenCheck; Screen (ScreenCaptured (inl e));
            Screen ScreenWake]
    = Some (s, [ScreenCapture;
                Print ("[Error] Screen capture: " ++ e)%string;
                Sleep 1.0])
    /\ exists s1,
         step s (Screen ScreenCheck) = Some (s1, [ScreenCapture])
         /\ screen s1 = ScreenCapturing.
Proof.
  intros s e Ht Hon Hscr.
  assert (Hdown : forall pc, torn_down {| app := app s; mic := mic s;
                                          screen := pc; speaker := speaker s |}
                             = false) by (intros pc; exact Ht).
  split.
  - cbn [exec]. unfold step at 1. rewrite Ht. unfold screen_loop.
    rewrite Hscr, Hon.
    unfold step at 1. rewrite Hdown. cbn [app screen mic speaker screen_loop].
    unfold step at 1. rewrite Hdown. cbn [app screen mic speaker screen_loop].
    destruct s as [a m sc sp]. cbn in Hscr. subst sc. reflexivity.
  - eexists. unfold step. rewrite Ht. unfold screen_loop. rewrite Hscr, Hon.
    split; reflexivity.
Qed.

Lemma failed_capture_is_retried_witness :
  let s := fst (run_of [Mic (MicOpened None)]) in
  exec s [Screen ScreenCheck; Screen (ScreenCaptured (inl "grab failed"));
          Screen ScreenWake]
  = Some (s, [ScreenCapture; Print "[Error] Screen capture: grab failed";
              Sleep 1.0]).
Proof.
  intros s.
  apply (failed_capture_is_retried s "grab failed"); reflexivity.
Defined.
